(** * tinygit: a content-addressed object store

    A shallow embedding of the three programs of the repository:

    - [Tinygit]   src/myrepo/tinygit.cpp: hand-written SHA-1, streaming
                  deflate/inflate;
    - [Tinygit2]  the first program of src/unnamed/part_000 (lines 1-119):
                  OpenSSL SHA1, one-shot compress/uncompress;
    - [Combined]  combined_tinygit.cpp, the second program of
                  src/unnamed/part_000 (lines 121-305).

    std::string is [string]; size_t and uLong are 64-bit and modelled as [Z]
    with the wrap-around written out; uint32_t is [Z] reduced modulo 2^32;
    the file system is a finite map from paths to file contents. *)

From Stdlib Require Import ZArith String Ascii List Lia.
From stdpp Require Import gmap strings.
Import ListNotations.

Local Open Scope Z_scope.

#[local] Arguments String.append !_ _ / : simpl nomatch.

(** ** Outcomes of C++ code: a value, an uncaught exception, or a loop that
    never exits. *)

Inductive exn : Type :=
| out_of_range.

Inductive outcome (A : Type) : Type :=
| Ret (a : A)
| Throw (e : exn)
| Diverge.

Arguments Ret {A} a.
Arguments Throw {A} e.
Arguments Diverge {A}.

Definition bind {A B : Type} (m : outcome A) (k : A -> outcome B) : outcome B :=
  match m with
  | Ret a => k a
  | Throw e => Throw e
  | Diverge => Diverge
  end.

(** ** std::string *)

Module Str.

Definition npos : Z := 2 ^ 64 - 1.

(** size_t arithmetic *)
Definition size_t (z : Z) : Z := z mod 2 ^ 64.

Definition size (s : string) : Z := Z.of_nat (String.length s).

Fixpoint drop (n : nat) (s : string) : string :=
  match n, s with
  | O, _ => s
  | S n', String _ s' => drop n' s'
  | S _, EmptyString => EmptyString
  end.

Fixpoint take (n : nat) (s : string) : string :=
  match n, s with
  | O, _ => EmptyString
  | S n', String c s' => String c (take n' s')
  | S _, EmptyString => EmptyString
  end.

(** s.substr(pos, n): throws std::out_of_range when pos > size();
    otherwise the result has length min(n, size() - pos). *)
Definition substr (s : string) (pos n : Z) : outcome string :=
  if size s <? pos then Throw out_of_range
  else
    let rlen := Z.min n (size s - pos) in
    Ret (take (Z.to_nat rlen) (drop (Z.to_nat pos) s)).

(** s.substr(pos): the count defaults to npos, the result is the rest
    of the string. *)
Definition substr_from (s : string) (pos : Z) : outcome string :=
  if size s <? pos then Throw out_of_range
  else Ret (drop (Z.to_nat pos) s).

Fixpoint find_from (s : string) (c : ascii) (i : Z) : Z :=
  match s with
  | EmptyString => npos
  | String a s' => if Ascii.eqb a c then i else find_from s' c (i + 1)
  end.

(** s.find(c): the index of the first occurrence, or npos. *)
Definition find (s : string) (c : ascii) : Z := find_from s c 0.

Definition NUL : ascii := Ascii.zero.
Definition LF : ascii := "010"%char.

Definition nl : string := String LF EmptyString.
Definition nul : string := String NUL EmptyString.

(** The digit characters used by the decimal and std::hex conversions. *)
Definition digit_char (d : Z) : ascii :=
  if d <? 10 then ascii_of_N (Z.to_N (48 + d))
  else ascii_of_N (Z.to_N (87 + d)).

Fixpoint utoa_aux (fuel : nat) (base n : Z) (acc : string) : string :=
  let acc' := String (digit_char (n mod base)) acc in
  match fuel with
  | O => acc'
  | S fuel' =>
      if n / base =? 0 then acc' else utoa_aux fuel' base (n / base) acc'
  end.

(** Unsigned conversion of [n] in base [base] (10 or 16), no leading
    zeros, "0" for 0. *)
Definition utoa (base n : Z) : string :=
  utoa_aux (Z.to_nat (Z.log2 n)) base n EmptyString.

(** std::to_string(size_t) and operator<< on an unsigned value. *)
Definition to_string (n : Z) : string := utoa 10 n.

(** operator<< on a signed integer (time_t) in decimal. *)
Definition itoa (n : Z) : string :=
  if n <? 0 then String "-"%char (utoa 10 (- n)) else utoa 10 n.

Fixpoint fill (n : nat) (c : ascii) : string :=
  match n with
  | O => EmptyString
  | S n' => String c (fill n' c)
  end.

(** oss << std::setw(w) << std::setfill(c) << text (right-adjusted, the
    default): the text is padded on the left up to width [w]. *)
Definition setw (w : nat) (c : ascii) (text : string) : string :=
  fill (w - String.length text) c +:+ text.

(** oss << std::hex << std::setfill('0') << std::setw(w) << n *)
Definition hex_w (w : nat) (n : Z) : string := setw w "0"%char (utoa 16 n).

Fixpoint to_bytes (s : string) : list Z :=
  match s with
  | EmptyString => []
  | String c s' => Z.of_N (N_of_ascii c) :: to_bytes s'
  end.

Fixpoint concat (l : list string) : string :=
  match l with
  | [] => EmptyString
  | s :: l' => s +:+ concat l'
  end.

(** Every character of a string passes a test. *)
Fixpoint all_chars (P : ascii -> bool) (s : string) : bool :=
  match s with
  | EmptyString => true
  | String c s' => P c && all_chars P s'
  end.

Definition is_not (c : ascii) (a : ascii) : bool := negb (Ascii.eqb a c).

(** 0-9 and a-f *)
Definition is_lower_hex (a : ascii) : bool :=
  let n := Z.of_N (N_of_ascii a) in
  ((48 <=? n) && (n <=? 57)) || ((97 <=? n) && (n <=? 102)).

Definition is_digit (a : ascii) : bool :=
  let n := Z.of_N (N_of_ascii a) in (48 <=? n) && (n <=? 57).

(** The [k] digits of [n] modulo base^k, most significant first. *)
Fixpoint fixed (base : Z) (k : nat) (n : Z) : string :=
  match k with
  | O => EmptyString
  | S k' => fixed base k' (n / base) +:+ String (digit_char (n mod base)) EmptyString
  end.

(** The lines of a text: the pieces between line feeds. *)
Fixpoint lines_from (cur : string) (s : string) : list string :=
  match s with
  | EmptyString => [cur]
  | String c s' =>
      if Ascii.eqb c LF then cur :: lines_from EmptyString s'
      else lines_from (cur +:+ String c EmptyString) s'
  end.

Definition lines (s : string) : list string := lines_from EmptyString s.

End Str.

(** ** The process environment: files, directories, the clock and the two
    output streams

    Paths are compared as strings: a world lists its files and
    directories under the paths the programs build.  A file can be opened
    for writing when its parent directory exists; apart from that every
    file operation succeeds (permissions, disk space and memory are outside
    the model).  Two failures of the C++ library have no counterpart here:
    fs::create_directories throws when a component of the path is a
    regular file, and a stream opened on a directory cannot be read or
    written.  The operations are as the library has them in the worlds
    where neither can occur, [Env.is_directory] and [Env.is_regular_file]
    say which those are ([Layout.storable] for the object store). *)

Record world : Type := World {
  files : gmap string string;
  dirs : gset string;
  clock : nat -> Z;      (* the result of the n-th call of std::time *)
  ticks : nat;           (* calls of std::time so far *)
  cout : string;
  cerr : string
}.

Definition M (A : Type) : Type := world -> outcome (A * world).

Definition ret {A : Type} (a : A) : M A := fun w => Ret (a, w).

Definition mbind {A B : Type} (m : M A) (k : A -> M B) : M B :=
  fun w =>
    match m w with
    | Ret (a, w') => k a w'
    | Throw e => Throw e
    | Diverge => Diverge
    end.

Definition lift {A : Type} (o : outcome A) : M A :=
  fun w => bind o (fun a => Ret (a, w)).

Notation "x <- m ;; k" := (mbind m (fun x => k))
  (at level 20, m at level 99, k at level 200, only parsing).
Notation "m ;; k" := (mbind m (fun _ => k))
  (at level 100, k at level 200, only parsing, right associativity).

Module Env.

Definition set_files (f : gmap string string) (w : world) : world :=
  World f (dirs w) (clock w) (ticks w) (cout w) (cerr w).
Definition set_dirs (d : gset string) (w : world) : world :=
  World (files w) d (clock w) (ticks w) (cout w) (cerr w).

(** std::time(nullptr) *)
Definition time : M Z :=
  fun w => Ret (clock w (ticks w),
                World (files w) (dirs w) (clock w) (S (ticks w)) (cout w) (cerr w)).

(** std::cout << text *)
Definition put_cout (text : string) : M unit :=
  fun w => Ret (tt, World (files w) (dirs w) (clock w) (ticks w)
                          (cout w +:+ text) (cerr w)).

(** std::cerr << text *)
Definition put_cerr (text : string) : M unit :=
  fun w => Ret (tt, World (files w) (dirs w) (clock w) (ticks w)
                          (cout w) (cerr w +:+ text)).

Definition slash : ascii := "/"%char.

(** The path split at its last '/', if it has one. *)
Fixpoint split_last_slash (p : string) : option (string * string) :=
  match p with
  | EmptyString => None
  | String c p' =>
      match split_last_slash p' with
      | Some (d, b) => Some (String c d, b)
      | None => if Ascii.eqb c slash then Some (EmptyString, p') else None
      end
  end.

(** fs::path::parent_path *)
Definition parent_path (p : string) : string :=
  match split_last_slash p with
  | Some (d, _) => d
  | None => EmptyString
  end.

(** [p] and the directories above it. *)
Fixpoint ancestors_from (pre p : string) : list string :=
  match p with
  | EmptyString => [pre]
  | String c p' =>
      if Ascii.eqb c slash
      then pre :: ancestors_from (pre +:+ String c EmptyString) p'
      else ancestors_from (pre +:+ String c EmptyString) p'
  end.

Definition ancestors (p : string) : list string := ancestors_from EmptyString p.

(** fs::create_directories(p): creates p and every missing ancestor.  The
    library throws std::filesystem::filesystem_error when p or an ancestor
    is a regular file; such worlds are excluded where it matters
    ([is_regular_file], [Layout.storable]). *)
Definition create_directories (p : string) : M unit :=
  fun w => Ret (tt, set_dirs (list_to_set (ancestors p) ∪ dirs w) w).

Definition can_create (p : string) (w : world) : bool :=
  match split_last_slash p with
  | None => true
  | Some (d, b) => bool_decide (d ∈ dirs w) && negb (String.eqb b EmptyString)
  end.

(** std::ofstream(p) << content, or .write(content): the file is created
    or truncated; when it cannot be opened nothing is written and nothing
    is reported.  Opening fails for a missing parent directory; it fails
    as well for a path that is a directory, a case the model leaves to
    [is_directory]. *)
Definition ofstream_write (p content : string) : M unit :=
  fun w =>
    if can_create p w then Ret (tt, set_files (<[p:=content]> (files w)) w)
    else Ret (tt, w).

(** std::ifstream in(p): [None] when the stream is in a failed state,
    otherwise the whole content (what the istreambuf_iterator range
    reads).  A path that is a directory opens and then throws
    std::ios_base::failure when read; the model covers the worlds where the
    path is not a directory ([is_directory]). *)
Definition ifstream_open (p : string) : M (option string) :=
  fun w => Ret (files w !! p, w).

(** What a path names in a world. *)
Definition is_regular_file (p : string) (w : world) : bool :=
  bool_decide (is_Some (files w !! p)).
Definition is_directory (p : string) (w : world) : bool :=
  bool_decide (p ∈ dirs w).

(** fs::exists(p), for a path spelled as the world lists it (no trailing
    separator). *)
Definition exists_ (p : string) : M bool :=
  fun w => Ret (bool_decide (is_Some (files w !! p)) || bool_decide (p ∈ dirs w), w).

Fixpoint skip_ws (s : string) : string :=
  match s with
  | EmptyString => EmptyString
  | String c s' => if Ascii.is_space c then skip_ws s' else s
  end.

Fixpoint take_word (s : string) : string :=
  match s with
  | EmptyString => EmptyString
  | String c s' =>
      if Ascii.is_space c then EmptyString else String c (take_word s')
  end.

(** stream >> word on a stream holding [content] (or failed to open):
    leading white space is skipped, characters are taken up to the next
    white space; the extraction fails when no character is taken, and the
    target string is then empty (it was empty before in every use). *)
Definition extract (stream : option string) : bool * string :=
  match stream with
  | None => (false, EmptyString)
  | Some content =>
      let word := take_word (skip_ws content) in
      (negb (String.eqb word EmptyString), word)
  end.

End Env.

(** ** zlib

    zlib is a library the programs link against.  Its two stream
    transformations are parameters: the zlib stream deflate produces for an
    input at Z_DEFAULT_COMPRESSION, and for inflate the bytes it produces
    from an input together with the code it ends with.  The calls the
    programs make (deflate, inflate, compress, uncompress, compressBound)
    are defined from them following the zlib manual. *)

Inductive zfinal : Type :=
| StreamEnd     (* the stream is complete *)
| NeedDict
| DataError     (* the input is corrupted *)
| BufError.     (* the input is incomplete: no progress is possible *)

Class Zlib : Type := {
  deflate_stream : string -> string;
  inflate_stream : string -> string * zfinal;
  compressBound : Z -> Z
}.

(** What the programs rely on: inflate inverts deflate, an empty input is an
    incomplete stream, and compressBound is an upper bound. *)
Class ZlibLaws (zl : Zlib) : Prop := {
  inflate_deflate : forall x, inflate_stream (deflate_stream x) = (x, StreamEnd);
  inflate_empty : inflate_stream EmptyString = (EmptyString, BufError);
  deflate_bound : forall x, Str.size (deflate_stream x) <= compressBound (Str.size x)
}.

Module Z_.

Definition Z_OK : Z := 0.
Definition Z_STREAM_END : Z := 1.
Definition Z_NEED_DICT : Z := 2.
Definition Z_DATA_ERROR : Z := -3.
Definition Z_BUF_ERROR : Z := -5.

Definition code (f : zfinal) : Z :=
  match f with
  | StreamEnd => Z_STREAM_END
  | NeedDict => Z_NEED_DICT
  | DataError => Z_DATA_ERROR
  | BufError => Z_BUF_ERROR
  end.

(** A z_stream after deflateInit or inflateInit and the assignment of
    next_in and avail_in: the output still to be delivered and the code
    returned once it has been delivered. *)
Record z_stream : Type := { pending : string; final : Z }.

Section Calls.
Context {zl : Zlib}.

Definition deflate_begin (input : string) : z_stream :=
  {| pending := deflate_stream input; final := Z_STREAM_END |}.

Definition inflate_begin (input : string) : z_stream :=
  let '(out, fin) := inflate_stream input in
  {| pending := out; final := code fin |}.

(** One call of deflate(&zs, Z_FINISH) or inflate(&zs, Z_NO_FLUSH) with
    [avail_out] bytes of room: the bytes written, the return code (Z_OK
    while output remains) and the stream afterwards. *)
Definition call (zs : z_stream) (avail_out : nat) : string * Z * z_stream :=
  let rest := Str.drop avail_out (pending zs) in
  (Str.take avail_out (pending zs),
   if String.eqb rest EmptyString then final zs else Z_OK,
   {| pending := rest; final := final zs |}).

(** compress(dest, &destLen, source, sourceLen): the return code, the
    bytes placed in dest and the new destLen. *)
Definition compress (destLen : Z) (source : string) : Z * string * Z :=
  let stream := deflate_stream source in
  if Str.size stream <=? destLen then (Z_OK, stream, Str.size stream)
  else (Z_BUF_ERROR, Str.take (Z.to_nat destLen) stream, destLen).

(** uncompress(dest, &destLen, source, sourceLen), as zlib's uncompress2
    computes it.  With room for the whole output the result is Z_OK for a
    complete stream and Z_DATA_ERROR for a corrupted or incomplete one, and
    destLen becomes the size of the output.  When the output does not fit,
    inflate stops with Z_BUF_ERROR at the full buffer and destLen keeps its
    value; the same happens when an incomplete stream fills the buffer
    exactly.  With destLen = 0 zlib inflates into a buffer of one byte of
    its own and nothing reaches dest: a complete stream of at most one byte
    gives Z_OK, everything else Z_DATA_ERROR, never Z_BUF_ERROR. *)
Definition uncompress (destLen : Z) (source : string) : Z * string * Z :=
  let '(out, fin) := inflate_stream source in
  if destLen =? 0 then
    match fin with
    | StreamEnd =>
        if Str.size out <=? 1 then (Z_OK, "", 0) else (Z_DATA_ERROR, "", 0)
    | _ => (Z_DATA_ERROR, "", 0)
    end
  else if destLen <? Str.size out
  then (Z_BUF_ERROR, Str.take (Z.to_nat destLen) out, destLen)
  else match fin with
       | StreamEnd => (Z_OK, out, Str.size out)
       | BufError =>
           if Str.size out =? destLen then (Z_BUF_ERROR, out, destLen)
           else (Z_DATA_ERROR, out, Str.size out)
       | _ => (Z_DATA_ERROR, out, Str.size out)
       end.

End Calls.

End Z_.

(** ** OpenSSL's SHA1

    Modelled from the spec: the programs of src/unnamed/part_000 call SHA1
    of OpenSSL, whose code is not part of the repository.  The spec only
    says the Hasher is SHA-1 with a 20-byte digest; the definition below is
    the Secure Hash Algorithm as FIPS 180-4 words it (sections 5.1.1, 5.2.1,
    5.3.1 and 6.1.2), with the message length taken modulo 2^64. *)

Module OpenSSL.

Definition SHA_DIGEST_LENGTH : nat := 20.

(** Words are numbers below 2^32; addition is modulo 2^32. *)
Definition ROTL (n x : Z) : Z := (x * 2 ^ n) mod 2 ^ 32 + x / 2 ^ (32 - n).

Definition Ch (x y z : Z) : Z := Z.lxor (Z.land x y) (Z.land (Z.lnot x) z).
Definition Parity (x y z : Z) : Z := Z.lxor (Z.lxor x y) z.
Definition Maj (x y z : Z) : Z :=
  Z.lxor (Z.lxor (Z.land x y) (Z.land x z)) (Z.land y z).

Definition f (t : nat) (x y z : Z) : Z :=
  if (t <? 20)%nat then Ch x y z
  else if (t <? 40)%nat then Parity x y z
  else if (t <? 60)%nat then Maj x y z
  else Parity x y z.

Definition K (t : nat) : Z :=
  if (t <? 20)%nat then 1518500249    (* 5a827999 *)
  else if (t <? 40)%nat then 1859775393    (* 6ed9eba1 *)
  else if (t <? 60)%nat then 2400959708    (* 8f1bbcdc *)
  else 3395469782.                         (* ca62c1d6 *)

(** The [n] bytes of [x], most significant first. *)
Fixpoint be_bytes (n : nat) (x : Z) : list Z :=
  match n with
  | O => []
  | S n' => (x / 256 ^ Z.of_nat n') mod 256 :: be_bytes n' x
  end.

(** 5.1.1: the bit 1, k zero bits with l + 1 + k = 448 mod 512, and l as a
    64-bit number; in bytes, 0x80 carries the 1 and seven of the zeros. *)
Definition pad (msg : list Z) : list Z :=
  let l := 8 * Z.of_nat (length msg) in
  let k := (448 - (l + 1)) mod 512 in
  msg ++ [128] ++ repeat 0 (Z.to_nat ((k - 7) / 8)) ++ be_bytes 8 (l mod 2 ^ 64).

(** 5.2.1: the padded message is parsed into blocks of sixteen words. *)
Fixpoint words (bs : list Z) : list Z :=
  match bs with
  | b0 :: b1 :: b2 :: b3 :: rest =>
      (((b0 * 256 + b1) * 256 + b2) * 256 + b3) :: words rest
  | _ => []
  end.

Fixpoint blocks (n : nat) (bs : list Z) : list (list Z) :=
  match n with
  | O => []
  | S n' => firstn 64 bs :: blocks n' (skipn 64 bs)
  end.

(** 6.1.2 step 1: the message schedule W_0 .. W_79. *)
Fixpoint W_extend (n : nat) (W : list Z) : list Z :=
  match n with
  | O => W
  | S n' =>
      let t := length W in
      W_extend n'
        (W ++ [ROTL 1 (Z.lxor (Z.lxor (Z.lxor (nth (t - 3) W 0) (nth (t - 8) W 0))
                                      (nth (t - 14) W 0)) (nth (t - 16) W 0))])
  end.

Definition schedule (block : list Z) : list Z := W_extend 64 (words block).

(** 6.1.2 step 3 *)
Definition step (W : list Z) (v : Z * Z * Z * Z * Z) (t : nat)
  : Z * Z * Z * Z * Z :=
  let '(a, b, c, d, e) := v in
  let T := (ROTL 5 a + f t b c d + e + K t + nth t W 0) mod 2 ^ 32 in
  (T, a, ROTL 30 b, c, d).

(** 6.1.2 steps 2 and 4 *)
Definition compress_block (H : Z * Z * Z * Z * Z) (block : list Z)
  : Z * Z * Z * Z * Z :=
  let '(H0, H1, H2, H3, H4) := H in
  let '(a, b, c, d, e) := fold_left (step (schedule block)) (seq 0 80) H in
  ((a + H0) mod 2 ^ 32, (b + H1) mod 2 ^ 32, (c + H2) mod 2 ^ 32,
   (d + H3) mod 2 ^ 32, (e + H4) mod 2 ^ 32).

(** 5.3.1 *)
Definition H_0 : Z * Z * Z * Z * Z :=
  (1732584193, 4023233417, 2562383102, 271733878, 3285377520).

(** Modelled from the spec: SHA1(data, len, hash) of OpenSSL, the twenty
    bytes stored in hash; the Hasher of the spec, a 20-byte digest. *)
Definition SHA1 (data : string) : list Z :=
  let padded := pad (Str.to_bytes data) in
  let '(H0, H1, H2, H3, H4) :=
    fold_left compress_block (blocks (length padded / 64) padded) H_0 in
  be_bytes 4 H0 ++ be_bytes 4 H1 ++ be_bytes 4 H2 ++ be_bytes 4 H3 ++
  be_bytes 4 H4.

End OpenSSL.

(** ** src/myrepo/tinygit.cpp *)

Module Tinygit.

(** *** sha1, lines 15-103 *)

Definition uint32 (z : Z) : Z := z mod 2 ^ 32.
Definition uint64 (z : Z) : Z := z mod 2 ^ 64.

(** uint32_t operators *)
Definition shl32 (x n : Z) : Z := uint32 (Z.shiftl x n).
Definition shr32 (x n : Z) : Z := Z.shiftr x n.
Definition not32 (x : Z) : Z := Z.lxor x 4294967295.
Definition add32 (x y : Z) : Z := uint32 (x + y).

(** v[i] on a vector or array; every access of the program is in range
    (the padded message is a whole number of blocks), the default is
    never read. *)
Definition at_ (v : list Z) (i : nat) : Z := nth i v 0.

(** v[i] = x *)
Definition set_ (v : list Z) (i : nat) (x : Z) : list Z := <[i:=x]> v.

(** while ((padded.size() * 8) % 512 != 448) padded.push_back(0x00);
    at most 63 bytes are appended, so the 64 units of fuel are never
    used up. *)
Fixpoint pad_zeros (fuel : nat) (padded : list Z) : list Z :=
  match fuel with
  | O => padded
  | S fuel' =>
      if negb (Str.size_t (Z.of_nat (length padded) * 8) mod 512 =? 448)
      then pad_zeros fuel' (padded ++ [0])
      else padded
  end.

(** for (int i = 7; i >= 0; i--)
      padded.push_back((bit_len >> (i * 8)) & 0xFF); *)
Definition push_length (padded : list Z) (bit_len : Z) : list Z :=
  fold_left
    (fun p i => p ++ [Z.land (Z.shiftr bit_len (Z.of_nat i * 8)) 255])
    [7; 6; 5; 4; 3; 2; 1; 0]%nat padded.

Definition padding (data : string) : list Z :=
  let padded := Str.to_bytes data in
  let orig_len := Z.of_nat (length padded) in
  let padded := padded ++ [128] in
  let padded := pad_zeros 64 padded in
  let bit_len := uint64 (orig_len * 8) in
  push_length padded bit_len.

(** Lines 45-50: the first 16 words of w, big-endian. *)
Definition load_word (padded : list Z) (offset i : nat) : Z :=
  fold_left
    (fun wi j =>
       Z.lor wi (shl32 (at_ padded (offset + i * 4 + j))
                       (24 - Z.of_nat j * 8)))
    (seq 0 4) 0.

Definition load_block (padded : list Z) (offset : nat) (w : list Z) : list Z :=
  fold_left (fun w i => set_ w i (load_word padded offset i)) (seq 0 16) w.

(** Lines 53-56 *)
Definition extend_step (w : list Z) (i : nat) : list Z :=
  let w := set_ w i
    (Z.lxor (Z.lxor (Z.lxor (at_ w (i - 3)) (at_ w (i - 8)))
                    (at_ w (i - 14))) (at_ w (i - 16))) in
  set_ w i (Z.lor (shl32 (at_ w i) 1) (shr32 (at_ w i) 31)).

Definition extend (w : list Z) : list Z :=
  fold_left extend_step (seq 16 64) w.

(** Lines 61-83: one round of the main loop on (a, b, c, d, e). *)
Definition round (w : list Z) (st : Z * Z * Z * Z * Z) (i : nat)
  : Z * Z * Z * Z * Z :=
  let '(a, b, c, d, e) := st in
  let '(f, k) :=
    if (i <? 20)%nat then
      (Z.lor (Z.land b c) (Z.land (not32 b) d), 1518500249)
    else if (i <? 40)%nat then
      (Z.lxor (Z.lxor b c) d, 1859775393)
    else if (i <? 60)%nat then
      (Z.lor (Z.lor (Z.land b c) (Z.land b d)) (Z.land c d), 2400959708)
    else
      (Z.lxor (Z.lxor b c) d, 3395469782) in
  let temp :=
    add32 (add32 (add32 (add32 (Z.lor (shl32 a 5) (shr32 a 27)) f) e) k)
          (at_ w i) in
  (temp, a, Z.lor (shl32 b 30) (shr32 b 2), c, d).

(** The body of the loop over blocks, lines 42-91. *)
Definition process_block (padded : list Z) (h : Z * Z * Z * Z * Z)
  (offset : nat) : Z * Z * Z * Z * Z :=
  let '(h0, h1, h2, h3, h4) := h in
  let w := repeat 0 80 in
  let w := load_block padded offset w in
  let w := extend w in
  let '(a, b, c, d, e) := fold_left (round w) (seq 0 80) h in
  (add32 h0 a, add32 h1 b, add32 h2 c, add32 h3 d, add32 h4 e).

(** for (size_t offset = 0; offset < padded.size(); offset += 64):
    the offsets visited. *)
Definition offsets (n : nat) : list nat :=
  map (fun k => (64 * k)%nat) (seq 0 ((n + 63) / 64)).

Definition h_init : Z * Z * Z * Z * Z :=
  (1732584193, 4023233417, 2562383102, 271733878, 3285377520).

Definition hash_words (data : string) : Z * Z * Z * Z * Z :=
  let padded := padding data in
  fold_left (process_block padded) (offsets (length padded)) h_init.

Definition sha1 (data : string) : string :=
  let '(h0, h1, h2, h3, h4) := hash_words data in
  Str.hex_w 8 h0 +:+ Str.hex_w 8 h1 +:+ Str.hex_w 8 h2 +:+
  Str.hex_w 8 h3 +:+ Str.hex_w 8 h4.


(** *** The object store, lines 107-176 *)

Section Store.
Context {zl : Zlib}.

(** What operator+ appends for a string literal: the characters up to
    the terminating NUL of the array. *)
Fixpoint c_str (literal : string) : string :=
  match literal with
  | EmptyString => EmptyString
  | String c s' =>
      if Ascii.eqb c Str.NUL then EmptyString else String c (c_str s')
  end.

(** Lines 130-135: do { ... ret = deflate(&zs, Z_FINISH); ... }
    while (ret == Z_OK), with a buffer of 1024 bytes. *)
Fixpoint deflate_loop (fuel : nat) (zs : Z_.z_stream) (compressed : string)
  : string :=
  let '(chunk, r, zs') := Z_.call zs 1024 in
  let compressed := compressed +:+ chunk in
  if r =? Z_.Z_OK then
    match fuel with
    | O => compressed
    | S fuel' => deflate_loop fuel' zs' compressed
    end
  else compressed.

Definition write_object (data type : string) : M string :=
  (* the literal "\0" is the array {0, 0} *)
  let header :=
    type +:+ " " +:+ Str.to_string (Str.size data) +:+ c_str Str.nul in
  let store := header +:+ data in
  let sha := sha1 store in
  d <- lift (Str.substr sha 0 2) ;;
  let dir := ".tinygit/objects/" +:+ d in
  f <- lift (Str.substr_from sha 2) ;;
  let file := dir +:+ "/" +:+ f in
  Env.create_directories dir ;;
  let zs := Z_.deflate_begin store in
  let compressed := deflate_loop (String.length (Z_.pending zs)) zs "" in
  Env.ofstream_write file compressed ;;
  ret sha.

(** Lines 164-169: do { ... ret = inflate(&zs, Z_NO_FLUSH); ... }
    while (ret == Z_OK), with a buffer of 1024 bytes. *)
Fixpoint inflate_loop (fuel : nat) (zs : Z_.z_stream) (result : string)
  : string :=
  let '(chunk, r, zs') := Z_.call zs 1024 in
  let result := result +:+ chunk in
  if r =? Z_.Z_OK then
    match fuel with
    | O => result
    | S fuel' => inflate_loop fuel' zs' result
    end
  else result.

Definition read_object (sha : string) : M string :=
  d <- lift (Str.substr sha 0 2) ;;
  f <- lift (Str.substr_from sha 2) ;;
  let file := ".tinygit/objects/" +:+ d +:+ "/" +:+ f in
  in_ <- Env.ifstream_open file ;;
  let compressed := default "" in_ in
  let zs := Z_.inflate_begin compressed in
  let result := inflate_loop (String.length (Z_.pending zs)) zs "" in
  let null_pos := Str.find result Str.NUL in
  lift (Str.substr_from result (Str.size_t (null_pos + 1))).

(** *** main, lines 178-217 *)

Definition arg (argv : list string) (i : nat) : string := nth i argv "".

(** The content of the ostringstream commit; the two calls of
    std::time are the operands [t1] and [t2]. *)
Definition commit_stream (t1 t2 : Z) (argv3 : string) : string :=
  "tree " +:+ "dummy_sha" +:+ Str.nl +:+
  "author me <me@example.com> " +:+ Str.itoa t1 +:+ " +0000" +:+ Str.nl +:+
  "committer me <me@example.com> " +:+ Str.itoa t2 +:+ " +0000" +:+
  Str.nl +:+ Str.nl +:+
  argv3 +:+ Str.nl.

Definition main (argv : list string) : M Z :=
  let argc := Z.of_nat (length argv) in
  if argc <? 2 then
    Env.put_cerr ("usage: tinygit <command>" +:+ Str.nl) ;; ret 1
  else
    let cmd := arg argv 1 in
    if String.eqb cmd "init" then
      Env.create_directories ".tinygit/objects" ;;
      Env.create_directories ".tinygit/refs/heads" ;;
      Env.ofstream_write ".tinygit/HEAD" ("ref: refs/heads/master" +:+ Str.nl) ;;
      Env.put_cout ("Initialized empty tinygit repo" +:+ Str.nl) ;;
      ret 0
    else if String.eqb cmd "add" && (argc =? 3) then
      in_ <- Env.ifstream_open (arg argv 2) ;;
      let content := default "" in_ in
      write_object content "blob" ;;
      ret 0
    else if String.eqb cmd "commit" && (argc =? 4)
            && String.eqb (arg argv 2) "-m" then
      t1 <- Env.time ;;
      t2 <- Env.time ;;
      let commit := commit_stream t1 t2 (arg argv 3) in
      sha <- write_object commit "commit" ;;
      Env.ofstream_write ".tinygit/refs/heads/master" (sha +:+ Str.nl) ;;
      s7 <- lift (Str.substr sha 0 7) ;;
      Env.put_cout ("[master " +:+ s7 +:+ "] " +:+ arg argv 3 +:+ Str.nl) ;;
      ret 0
    else if String.eqb cmd "log" then
      head <- Env.ifstream_open ".tinygit/refs/heads/master" ;;
      let sha := snd (Env.extract head) in
      payload <- read_object sha ;;
      Env.put_cout (payload +:+ Str.nl) ;;
      ret 0
    else
      Env.put_cerr ("unknown command" +:+ Str.nl) ;; ret 0.

End Store.

End Tinygit.

(** ** The first program of src/unnamed/part_000, lines 1-119 *)

Module Tinygit2.

(** Lines 23-30: each byte of the digest as two hexadecimal digits. *)
Definition sha1 (data : string) : string :=
  let hash := OpenSSL.SHA1 data in
  Str.concat
    (map (fun i => Str.hex_w 2 (nth i hash 0)) (seq 0 OpenSSL.SHA_DIGEST_LENGTH)).

Section Store.
Context {zl : Zlib}.

Definition write_object (data type : string) : M string :=
  let store :=
    type +:+ " " +:+ Str.to_string (Str.size data) +:+ Str.nul +:+ data in
  let sha := sha1 store in
  let bound := compressBound (Str.size store) in
  let '(_, compressed, len) := Z_.compress bound store in
  d <- lift (Str.substr sha 0 2) ;;
  f <- lift (Str.substr_from sha 2) ;;
  let file := ".tinygit/objects/" +:+ d +:+ "/" +:+ f in
  Env.create_directories (Env.parent_path file) ;;
  Env.ofstream_write file (Str.take (Z.to_nat len) compressed) ;;
  ret sha.

(** Lines 62-67: while ((ret = uncompress(...)) == Z_BUF_ERROR)
    { decompressed_size *= 2; decompressed.resize(decompressed_size); }
    [None] when the loop is still running after [fuel] doublings, which
    does not happen with [loop_fuel]. *)
Fixpoint uncompress_loop (fuel : nat) (decompressed_size : Z)
  (compressed : string) : option (Z * string * Z) :=
  let '(r, decompressed, size') :=
    Z_.uncompress decompressed_size compressed in
  if r =? Z_.Z_BUF_ERROR then
    match fuel with
    | O => None
    | S fuel' =>
        uncompress_loop fuel' (Str.size_t (size' * 2)) compressed
    end
  else Some (r, decompressed, size').

(** After 64 doublings a 64-bit size is 0, and uncompress does not
    return Z_BUF_ERROR for a buffer of no bytes: the loop has exited by
    then, so that 65 turns cover every run. *)
Definition loop_fuel : nat := 65.

Definition read_object (sha : string) : M string :=
  d <- lift (Str.substr sha 0 2) ;;
  f <- lift (Str.substr_from sha 2) ;;
  let file := ".tinygit/objects/" +:+ d +:+ "/" +:+ f in
  in_ <- Env.ifstream_open file ;;
  match in_ with
  | None => ret ""
  | Some compressed =>
      let decompressed_size := 1024 * 1024 in
      match uncompress_loop loop_fuel decompressed_size compressed with
      | None => lift Diverge  (* not reached: the loop has exited by then *)
      | Some (r, decompressed, decompressed_size) =>
          if negb (r =? Z_.Z_OK) then ret ""
          else
            let store := Str.take (Z.to_nat decompressed_size) decompressed in
            let null_pos := Str.find store Str.NUL in
            if null_pos =? Str.npos then ret ""
            else lift (Str.substr_from store (Str.size_t (null_pos + 1)))
      end
  end.

Definition arg (argv : list string) (i : nat) : string := nth i argv "".

(** The content of the ostringstream commit; the two calls of
    std::time are the operands [t1] and [t2]. *)
Definition commit_stream (t1 t2 : Z) (argv3 : string) : string :=
  "tree " +:+ "dummy_sha" +:+ Str.nl +:+
  "author me <me@example.com> " +:+ Str.itoa t1 +:+ " +0000" +:+ Str.nl +:+
  "committer me <me@example.com> " +:+ Str.itoa t2 +:+ " +0000" +:+
  Str.nl +:+ Str.nl +:+
  argv3 +:+ Str.nl.

Definition main (argv : list string) : M Z :=
  let argc := Z.of_nat (length argv) in
  if argc <? 2 then
    Env.put_cerr ("usage: tinygit <command>" +:+ Str.nl) ;; ret 1
  else
    let cmd := arg argv 1 in
    if String.eqb cmd "init" then
      Env.create_directories ".tinygit/objects" ;;
      Env.create_directories ".tinygit/refs/heads" ;;
      Env.ofstream_write ".tinygit/HEAD" ("ref: refs/heads/master" +:+ Str.nl) ;;
      Env.put_cout ("Initialized empty tinygit repo" +:+ Str.nl) ;;
      ret 0
    else if String.eqb cmd "add" && (argc =? 3) then
      in_ <- Env.ifstream_open (arg argv 2) ;;
      let content := default "" in_ in
      write_object content "blob" ;;
      ret 0
    else if String.eqb cmd "commit" && (argc =? 4)
            && String.eqb (arg argv 2) "-m" then
      t1 <- Env.time ;;
      t2 <- Env.time ;;
      let commit := commit_stream t1 t2 (arg argv 3) in
      sha <- write_object commit "commit" ;;
      Env.ofstream_write ".tinygit/refs/heads/master" (sha +:+ Str.nl) ;;
      s7 <- lift (Str.substr sha 0 7) ;;
      Env.put_cout ("[master " +:+ s7 +:+ "] " +:+ arg argv 3 +:+ Str.nl) ;;
      ret 0
    else if String.eqb cmd "log" then
      head <- Env.ifstream_open ".tinygit/refs/heads/master" ;;
      let sha := snd (Env.extract head) in
      payload <- read_object sha ;;
      Env.put_cout (payload +:+ Str.nl) ;;
      ret 0
    else
      Env.put_cerr ("unknown command" +:+ Str.nl) ;; ret 0.

End Store.

End Tinygit2.

(** ** combined_tinygit.cpp, src/unnamed/part_000 lines 121-305 *)

Module Combined.

(** Lines 152-162 *)
Definition sha1 (data : string) : string :=
  let hash := OpenSSL.SHA1 data in
  Str.concat
    (map (fun i => Str.hex_w 2 (nth i hash 0)) (seq 0 OpenSSL.SHA_DIGEST_LENGTH)).

Section Store.
Context {zl : Zlib}.

Definition write_object (data type : string) : M string :=
  let store :=
    type +:+ " " +:+ Str.to_string (Str.size data) +:+ Str.nul +:+ data in
  let sha := sha1 store in
  let bound := compressBound (Str.size store) in
  let '(r, compressed, compressed_len) := Z_.compress bound store in
  if negb (r =? Z_.Z_OK) then
    Env.put_cerr ("Compression failed!" +:+ Str.nl) ;; ret ""
  else
    d <- lift (Str.substr sha 0 2) ;;
    f <- lift (Str.substr_from sha 2) ;;
    let file := ".tinygit/objects/" +:+ d +:+ "/" +:+ f in
    Env.create_directories (Env.parent_path file) ;;
    Env.ofstream_write file (Str.take (Z.to_nat compressed_len) compressed) ;;
    ret sha.

(** Lines 217-222, the loop of [Tinygit2.uncompress_loop] again. *)
Fixpoint uncompress_loop (fuel : nat) (decompressed_size : Z)
  (compressed : string) : option (Z * string * Z) :=
  let '(r, decompressed, size') :=
    Z_.uncompress decompressed_size compressed in
  if r =? Z_.Z_BUF_ERROR then
    match fuel with
    | O => None
    | S fuel' =>
        uncompress_loop fuel' (Str.size_t (size' * 2)) compressed
    end
  else Some (r, decompressed, size').

Definition loop_fuel : nat := 65.

Definition read_object (sha : string) : M string :=
  d <- lift (Str.substr sha 0 2) ;;
  f <- lift (Str.substr_from sha 2) ;;
  let file := ".tinygit/objects/" +:+ d +:+ "/" +:+ f in
  present <- Env.exists_ file ;;
  if negb present then ret ""
  else
    in_ <- Env.ifstream_open file ;;
    let compressed := default "" in_ in
    let compressed_size := Str.size compressed in
    let decompressed_size := Str.size_t (compressed_size * 5) in
    match uncompress_loop loop_fuel decompressed_size compressed with
    | None => lift Diverge  (* not reached: the loop has exited by then *)
    | Some (r, decompressed, decompressed_size) =>
        if negb (r =? Z_.Z_OK) then
          Env.put_cerr ("Decompression failed!" +:+ Str.nl) ;; ret ""
        else
          let store := Str.take (Z.to_nat decompressed_size) decompressed in
          let null_pos := Str.find store Str.NUL in
          if null_pos =? Str.npos then ret ""
          else lift (Str.substr_from store (Str.size_t (null_pos + 1)))
    end.

Definition arg (argv : list string) (i : nat) : string := nth i argv "".

(** The content of the ostringstream commit; [t] is the one reading of
    the clock. *)
Definition commit_stream (tree_sha : string) (t : Z) (message : string)
  : string :=
  "tree " +:+ tree_sha +:+ Str.nl +:+
  "author Your Name <you@example.com> " +:+ Str.itoa t +:+ " +0000" +:+ Str.nl +:+
  "committer Your Name <you@example.com> " +:+ Str.itoa t +:+ " +0000" +:+
  Str.nl +:+ Str.nl +:+
  message +:+ Str.nl.

Definition main (argv : list string) : M Z :=
  let argc := Z.of_nat (length argv) in
  if argc <? 2 then
    Env.put_cerr ("usage: tinygit <command> [<args>...]" +:+ Str.nl) ;; ret 1
  else
    let cmd := arg argv 1 in
    if String.eqb cmd "init" then
      Env.create_directories ".tinygit/objects" ;;
      Env.create_directories ".tinygit/refs/heads" ;;
      Env.ofstream_write ".tinygit/HEAD" ("ref: refs/heads/master" +:+ Str.nl) ;;
      Env.put_cout ("Initialized empty tinygit repository in ./.tinygit/" +:+ Str.nl) ;;
      ret 0
    else if String.eqb cmd "add" && (argc =? 3) then
      let file_path := arg argv 2 in
      in_ <- Env.ifstream_open file_path ;;
      match in_ with
      | None =>
          Env.put_cerr ("fatal: could not open file '" +:+ file_path +:+ "'" +:+ Str.nl) ;;
          ret 1
      | Some content =>
          sha <- write_object content "blob" ;;
          Env.put_cout ("Staged " +:+ file_path +:+ " as blob " +:+ sha +:+ Str.nl) ;;
          ret 0
      end
    else if String.eqb cmd "commit" && (argc =? 4)
            && String.eqb (arg argv 2) "-m" then
      let message := arg argv 3 in
      let tree_sha := "dummy_tree_sha_placeholder" in
      t <- Env.time ;;
      let commit := commit_stream tree_sha t message in
      commit_sha <- write_object commit "commit" ;;
      Env.ofstream_write ".tinygit/refs/heads/master" (commit_sha +:+ Str.nl) ;;
      s7 <- lift (Str.substr commit_sha 0 7) ;;
      Env.put_cout ("[master " +:+ s7 +:+ "] " +:+ message +:+ Str.nl) ;;
      ret 0
    else if String.eqb cmd "log" then
      head <- Env.ifstream_open ".tinygit/refs/heads/master" ;;
      let '(ok, sha) := Env.extract head in
      if ok then
        commit_data <- read_object sha ;;
        Env.put_cout ("commit " +:+ sha +:+ Str.nl +:+ commit_data +:+ Str.nl) ;;
        ret 0
      else
        Env.put_cerr ("fatal: no commits yet" +:+ Str.nl) ;; ret 0
    else
      Env.put_cerr ("tinygit: '" +:+ cmd +:+ "' is not a tinygit command." +:+ Str.nl) ;;
      ret 0.

End Store.

End Combined.

(** ** A small codec satisfying [ZlibLaws], used to run the programs on
    concrete inputs: the stream is the input behind the two-byte zlib
    header 78 01. *)

Module Stored.

Definition header : string := String "x"%char (String "001"%char "").

Definition unframe (s : string) : string * zfinal :=
  match s with
  | EmptyString => ("", BufError)
  | String a EmptyString => ("", if Ascii.eqb a "x"%char then BufError else DataError)
  | String a (String b rest) =>
      if Ascii.eqb a "x"%char && Ascii.eqb b "001"%char
      then (rest, StreamEnd) else ("", DataError)
  end.

#[export] Instance zlib : Zlib := {|
  deflate_stream x := header +:+ x;
  inflate_stream := unframe;
  compressBound n := n + Z.shiftr n 12 + Z.shiftr n 14 + Z.shiftr n 25 + 13
|}.

End Stored.

(** ** A codec that compresses, satisfying [ZlibLaws] as well: behind the
    same header every run of up to 255 equal bytes is written as the byte
    and the length of the run.  It makes a stored object smaller than a
    fifth of its encoding, which the first guess of the combined program
    needs to be too small. *)

Module Rle.

Fixpoint encode (s : string) : string :=
  match s with
  | EmptyString => EmptyString
  | String c s' =>
      match encode s' with
      | String c' (String n r) =>
          if Ascii.eqb c c' && (nat_of_ascii n <? 255)%nat
          then String c (String (ascii_of_nat (S (nat_of_ascii n))) r)
          else String c (String "001"%char (String c' (String n r)))
      | r => String c (String "001"%char r)
      end
  end.

Fixpoint decode (s : string) : option string :=
  match s with
  | EmptyString => Some EmptyString
  | String c (String n r) =>
      match decode r with
      | Some out => Some (Str.fill (nat_of_ascii n) c +:+ out)
      | None => None
      end
  | String _ EmptyString => None
  end.

Definition unframe (s : string) : string * zfinal :=
  match s with
  | EmptyString => ("", BufError)
  | String a EmptyString => ("", if Ascii.eqb a "x"%char then BufError else DataError)
  | String a (String b rest) =>
      if Ascii.eqb a "x"%char && Ascii.eqb b "001"%char
      then match decode rest with
           | Some out => (out, StreamEnd)
           | None => ("", DataError)
           end
      else ("", DataError)
  end.

#[export] Instance zlib : Zlib := {|
  deflate_stream x := Stored.header +:+ encode x;
  inflate_stream := unframe;
  compressBound n := 2 * n + 2
|}.

End Rle.

(** ** Sample worlds *)

Module Sample.

(** Nothing on disk, a clock that advances by one second per reading. *)
Definition fresh : world :=
  World ∅ ∅ (fun n => 1700000000 + Z.of_nat n) 0 "" "".

(** The world after tinygit init. *)
Definition initialised : world :=
  World {[ ".tinygit/HEAD" := "ref: refs/heads/master" +:+ Str.nl ]}
        (list_to_set [".tinygit"; ".tinygit/objects"; ".tinygit/refs";
                      ".tinygit/refs/heads"])
        (fun n => 1700000000 + Z.of_nat n) 0
        ("Initialized empty tinygit repo" +:+ Str.nl) "".

Definition hello : string := "hello" +:+ Str.nl.

(** A working directory with the file hello.txt and no repository yet. *)
Definition start : world :=
  World {[ "hello.txt" := hello ]} ∅ (fun n => 1700000000 + Z.of_nat n) 0 "" "".

(** What a run returned, printed on standard output, and printed on standard
    error. *)
Definition value {A : Type} (o : outcome (A * world)) : outcome A :=
  bind o (fun r => Ret (fst r)).
Definition printed {A : Type} (o : outcome (A * world)) : outcome string :=
  bind o (fun r => Ret (cout (snd r))).

End Sample.

(** ** The data model in the words of the specification *)

Module Layout.

(** Section 6: <root>/objects/<id[0:2]>/<id[2:]>, the first two characters
    of the identifier as a directory, the remainder as the file name. *)
Definition shard_dir (id : string) : string := Str.take 2 id.
Definition shard_file (id : string) : string := Str.drop 2 id.

Definition object_dir (id : string) : string :=
  ".tinygit/objects/" +:+ shard_dir id.

Definition object_path (id : string) : string :=
  ".tinygit/objects/" +:+ shard_dir id +:+ "/" +:+ shard_file id.

(** Section 3: kind + " " + byte_length_of(payload) + NUL + payload *)
Definition canonical_encoding (kind payload : string) : string :=
  kind +:+ " " +:+ Str.to_string (Str.size payload) +:+ Str.nul +:+ payload.

(** Section 3, the commit payload:
    tree <tree_id>\nauthor <identity> <unix_time> <tz>\n
    committer <identity> <unix_time> <tz>\n\n<message>\n *)
Definition commit_payload (tree_id identity : string) (unix_time : Z)
  (tz message : string) : string :=
  "tree " +:+ tree_id +:+ Str.nl +:+
  "author " +:+ identity +:+ " " +:+ Str.itoa unix_time +:+ " " +:+ tz +:+ Str.nl +:+
  "committer " +:+ identity +:+ " " +:+ Str.itoa unix_time +:+ " " +:+ tz +:+ Str.nl +:+
  Str.nl +:+
  message +:+ Str.nl.

(** Section 4.1: a lowercase hexadecimal string of 40 characters *)
Definition is_object_id (id : string) : Prop :=
  String.length id = 40%nat /\ Str.all_chars Str.is_lower_hex id = true.

Definition ref_master : string := ".tinygit/refs/heads/master".

(** The identifier a path of the store stands for: the path without
    ".tinygit/objects/" (17 characters) and without the '/' after the
    directory. *)
Definition id_of_path (p : string) : string :=
  let rest := Str.drop 17 p in Str.take 2 rest +:+ Str.drop 3 rest.

(** The worlds in which the object [id] can be stored and opened as the
    programs expect: none of .tinygit, .tinygit/objects and the shard
    directory is a regular file (fs::create_directories would throw), and
    the object path is not a directory (the streams would fail). *)
Definition storable (id : string) (w : world) : bool :=
  forallb (fun a => negb (Env.is_regular_file a w))
          (Env.ancestors (object_dir id))
  && negb (Env.is_directory (object_path id) w).

(** The world after a file has been stored under a directory. *)
Definition with_file (dir path content : string) (w : world) : world :=
  World (<[path:=content]> (files w))
        (list_to_set (Env.ancestors dir) ∪ dirs w)
        (clock w) (ticks w) (cout w) (cerr w).

End Layout.

(** ** Stored objects used as examples *)

Module Scenario.

(** A hundred times the letter a, and 2 MiB of it: more than the first
    guess of 1 MiB. *)
Definition run : string := Str.fill 100 "a".
Definition big : string := Str.fill (Z.to_nat 2097152) "a".


End Scenario.

(** ** The sizes the decompression loop tries

    [doubled k s] is decompressed_size after k turns of the loop that starts
    with s: each turn multiplies the 64-bit size by 2. *)

Module Loop.

Fixpoint doubled (k : nat) (s : Z) : Z :=
  match k with
  | O => s
  | S k' => Str.size_t (doubled k' s * 2)
  end.

End Loop.

(** ** Ranges of the numbers the hash functions work on *)

Module Word.

Definition word (x : Z) : Prop := 0 <= x < 2 ^ 32.
Definition byte (x : Z) : Prop := 0 <= x < 256.

Definition word5 (h : Z * Z * Z * Z * Z) : Prop :=
  let '(a, b, c, d, e) := h in word a /\ word b /\ word c /\ word d /\ word e.

End Word.

(** * Properties *)

(** ** Strings *)

Module StrFacts.
Import Str.

Lemma app_nil_r (s : string) : s +:+ "" = s.
Proof. induction s; simpl; [reflexivity | now f_equal]. Qed.

Lemma app_assoc (a b c : string) : (a +:+ b) +:+ c = a +:+ (b +:+ c).
Proof. induction a; simpl; [reflexivity | now f_equal]. Qed.

Lemma length_app (a b : string) :
  String.length (a +:+ b) = (String.length a + String.length b)%nat.
Proof. induction a; simpl; [reflexivity | now f_equal]. Qed.

Lemma size_app (a b : string) : size (a +:+ b) = size a + size b.
Proof. unfold size. rewrite length_app. lia. Qed.

Lemma size_nonneg (s : string) : 0 <= size s.
Proof. unfold size. lia. Qed.

Lemma take_app (a b : string) : take (String.length a) (a +:+ b) = a.
Proof. induction a; simpl; [now destruct b | now f_equal]. Qed.

Lemma drop_app (a b : string) : drop (String.length a) (a +:+ b) = b.
Proof. induction a; simpl; auto. Qed.

Lemma take_all (n : nat) (s : string) :
  (String.length s <= n)%nat -> take n s = s.
Proof.
  revert n. induction s as [|c s IH]; intros [|n] Hn; simpl in *;
    try reflexivity; try lia.
  f_equal. apply IH. lia.
Qed.

Lemma drop_all (n : nat) (s : string) :
  (String.length s <= n)%nat -> drop n s = "".
Proof.
  revert n. induction s as [|c s IH]; intros [|n] Hn; simpl in *;
    try reflexivity; try lia.
  apply IH. lia.
Qed.

Lemma take_drop (n : nat) (s : string) : take n s +:+ drop n s = s.
Proof.
  revert s. induction n as [|n IH]; intros [|c s]; simpl; try reflexivity.
  now f_equal.
Qed.

Lemma length_take (n : nat) (s : string) :
  String.length (take n s) = Nat.min n (String.length s).
Proof.
  revert s. induction n as [|n IH]; intros [|c s]; simpl; try reflexivity.
  now f_equal.
Qed.

Lemma length_drop (n : nat) (s : string) :
  String.length (drop n s) = (String.length s - n)%nat.
Proof.
  revert s. induction n as [|n IH]; intros [|c s]; simpl; try reflexivity.
  apply IH.
Qed.

Lemma length_fill (n : nat) (c : ascii) : String.length (fill n c) = n.
Proof. induction n; simpl; [reflexivity | now f_equal]. Qed.

Lemma eqb_empty (s : string) : String.eqb s "" = true <-> s = "".
Proof. apply String.eqb_eq. Qed.

Lemma all_chars_app (P : ascii -> bool) (a b : string) :
  all_chars P (a +:+ b) = all_chars P a && all_chars P b.
Proof.
  induction a as [|c a IH]; simpl; [reflexivity|].
  rewrite IH. now rewrite andb_assoc.
Qed.

Lemma all_chars_take (P : ascii -> bool) (n : nat) (s : string) :
  all_chars P s = true -> all_chars P (take n s) = true.
Proof.
  revert s. induction n as [|n IH]; intros [|c s]; simpl; auto.
  intros [Hc Hs]%andb_true_iff. rewrite Hc. simpl. now apply IH.
Qed.

Lemma all_chars_drop (P : ascii -> bool) (n : nat) (s : string) :
  all_chars P s = true -> all_chars P (drop n s) = true.
Proof.
  revert s. induction n as [|n IH]; intros [|c s]; simpl; auto.
  intros [Hc Hs]%andb_true_iff. now apply IH.
Qed.

Lemma all_chars_fill (P : ascii -> bool) (n : nat) (c : ascii) :
  P c = true -> all_chars P (fill n c) = true.
Proof. intros Hc. induction n; simpl; [reflexivity | now rewrite Hc]. Qed.

Lemma all_chars_weaken (P Q : ascii -> bool) (s : string) :
  (forall c, P c = true -> Q c = true) ->
  all_chars P s = true -> all_chars Q s = true.
Proof.
  intros HPQ. induction s as [|c s IH]; simpl; [reflexivity|].
  intros [Hc Hs]%andb_true_iff. rewrite (HPQ _ Hc). simpl. auto.
Qed.

(** find on a string without the character, and at the first occurrence *)
Lemma find_from_absent (s : string) (c : ascii) (i : Z) :
  all_chars (is_not c) s = true -> find_from s c i = npos.
Proof.
  revert i. induction s as [|a s IH]; intros i; simpl; [reflexivity|].
  intros [Ha Hs]%andb_true_iff. apply negb_true_iff in Ha. rewrite Ha. auto.
Qed.

Lemma find_from_first (h t : string) (c : ascii) (i : Z) :
  all_chars (is_not c) h = true ->
  find_from (h +:+ String c t) c i = i + size h.
Proof.
  revert i. induction h as [|a h IH]; intros i; simpl.
  - intros _. rewrite Ascii.eqb_refl. unfold size. simpl. lia.
  - intros [Ha Hh]%andb_true_iff. apply negb_true_iff in Ha. rewrite Ha.
    rewrite IH by assumption. unfold size. simpl String.length. lia.
Qed.


Lemma find_first (h t : string) (c : ascii) :
  all_chars (is_not c) h = true ->
  find (h +:+ String c t) c = size h.
Proof. intros H. unfold find. now rewrite find_from_first. Qed.

Lemma find_from_range (s : string) (c : ascii) (i : Z) :
  find_from s c i = npos \/ i <= find_from s c i < i + size s.
Proof.
  revert i. induction s as [|a s IH]; intros i; simpl; [now left|].
  destruct (Ascii.eqb a c).
  - right. unfold size. simpl String.length. lia.
  - destruct (IH (i + 1)) as [H | H]; [now left | right].
    unfold size in *. simpl String.length. lia.
Qed.

(** substr inside the string *)
Lemma substr_from_ok (s : string) (pos : Z) :
  pos <= size s -> substr_from s pos = Ret (drop (Z.to_nat pos) s).
Proof.
  intros Hpos. unfold substr_from.
  destruct (Z.ltb_spec (size s) pos); [lia | reflexivity].
Qed.

Lemma substr_ok (s : string) (pos n : Z) :
  0 <= pos <= size s -> 0 <= n ->
  substr s pos n = Ret (take (Z.to_nat n) (drop (Z.to_nat pos) s)).
Proof.
  intros Hpos Hn. unfold substr.
  destruct (Z.ltb_spec (size s) pos); [lia|].
  f_equal. destruct (Z.min_spec n (size s - pos)) as [[_ ->] | [Hle ->]];
    [reflexivity|].
  rewrite !take_all; [reflexivity | |]; rewrite length_drop;
    unfold size in *; lia.
Qed.

Lemma substr_from_throws (s : string) (pos : Z) :
  size s < pos -> substr_from s pos = Throw out_of_range.
Proof.
  intros H. unfold substr_from.
  destruct (Z.ltb_spec (size s) pos); [reflexivity | lia].
Qed.

Lemma find_from_app (h t : string) (c : ascii) (i : Z) :
  all_chars (is_not c) h = true ->
  find_from (h +:+ t) c i = find_from t c (i + size h).
Proof.
  revert i. induction h as [|a h IH]; intros i; simpl.
  - intros _. unfold size. simpl. now rewrite Z.add_0_r.
  - intros [Ha Hh]%andb_true_iff. apply negb_true_iff in Ha. rewrite Ha.
    rewrite IH by assumption. f_equal. unfold size. simpl String.length. lia.
Qed.

(** Two texts that agree up to their first [c] agree before and after it. *)
Lemma split_at (c : ascii) (a b x y : string) :
  all_chars (is_not c) a = true -> all_chars (is_not c) b = true ->
  a +:+ String c x = b +:+ String c y -> a = b /\ x = y.
Proof.
  revert b. induction a as [|a0 a IH]; intros [|b0 b]; simpl; intros Ha Hb Heq.
  - injection Heq as ->. auto.
  - injection Heq as <- _. apply andb_true_iff in Hb as [Hb _].
    unfold is_not in Hb. now rewrite Ascii.eqb_refl in Hb.
  - injection Heq as -> _. apply andb_true_iff in Ha as [Ha _].
    unfold is_not in Ha. now rewrite Ascii.eqb_refl in Ha.
  - injection Heq as -> Heq.
    apply andb_true_iff in Ha as [_ Ha]. apply andb_true_iff in Hb as [_ Hb].
    destruct (IH b Ha Hb Heq) as [-> ->]. auto.
Qed.

(** The lines of a text, one segment at a time *)
Lemma lines_from_app (a t cur : string) :
  all_chars (is_not LF) a = true ->
  lines_from cur (a +:+ t) = lines_from (cur +:+ a) t.
Proof.
  revert cur. induction a as [|c a IH]; intros cur; simpl.
  - intros _. now rewrite app_nil_r.
  - intros [Hc Ha]%andb_true_iff. unfold is_not in Hc.
    apply negb_true_iff in Hc. rewrite Hc, IH by exact Ha.
    now rewrite app_assoc.
Qed.

Lemma lines_from_nl (t cur : string) :
  lines_from cur (nl +:+ t) = cur :: lines_from "" t.
Proof. reflexivity. Qed.

End StrFacts.

(** ** Number conversions *)

Module DigitFacts.
Import Str StrFacts.

Lemma length_fixed (base : Z) (k : nat) (n : Z) :
  String.length (fixed base k n) = k.
Proof.
  revert n. induction k as [|k IH]; intros n; simpl; [reflexivity|].
  rewrite length_app, IH. simpl. lia.
Qed.

Lemma fill_snoc (k : nat) (c : ascii) :
  fill k c +:+ String c "" = fill (S k) c.
Proof. induction k as [|k IH]; simpl; [reflexivity | now rewrite IH]. Qed.

Lemma fixed_zero (base : Z) (k : nat) :
  0 < base -> fixed base k 0 = fill k "0"%char.
Proof.
  intros Hb. induction k as [|k IH]; [reflexivity|].
  cbn [fixed]. rewrite Z.div_0_l, Z.mod_0_l by lia. rewrite IH.
  apply fill_snoc.
Qed.

(** A number below base^j written on k >= j digits starts with zeros. *)
Lemma fixed_pad (base : Z) (j : nat) :
  1 < base -> forall (k : nat) (n : Z),
  0 <= n < base ^ Z.of_nat j -> (j <= k)%nat ->
  fixed base k n = fill (k - j) "0"%char +:+ fixed base j n.
Proof.
  intros Hb. induction j as [|j IH]; intros k n Hn Hjk.
  - assert (n = 0) as -> by (simpl in Hn; lia).
    rewrite Nat.sub_0_r. cbn [fixed]. rewrite app_nil_r.
    apply fixed_zero. lia.
  - destruct k as [|k]; [lia|]. cbn [fixed].
    rewrite (IH k (n / base)); [| | lia].
    + now rewrite app_assoc.
    + rewrite Nat2Z.inj_succ, Z.pow_succ_r in Hn by lia. split.
      * apply Z.div_pos; lia.
      * apply Z.div_lt_upper_bound; lia.
Qed.

(** The conversion loop writes exactly the significant digits. *)
Lemma utoa_aux_fixed (base : Z) (fuel : nat) :
  1 < base -> forall (n : Z) (acc : string),
  0 <= n < base ^ Z.of_nat (S fuel) ->
  exists j : nat,
    (1 <= j)%nat /\ utoa_aux fuel base n acc = fixed base j n +:+ acc /\
    0 <= n < base ^ Z.of_nat j /\ (j = 1%nat \/ base ^ Z.of_nat (j - 1) <= n).
Proof.
  intros Hb. induction fuel as [|fuel IH]; intros n acc Hn.
  - exists 1%nat. cbn [utoa_aux fixed].
    split; [lia|]. split; [reflexivity|]. split; [exact Hn | now left].
  - cbn [utoa_aux]. destruct (Z.eqb_spec (n / base) 0) as [Hq | Hq].
    + exists 1%nat. cbn [fixed].
      split; [lia|]. split; [reflexivity|]. split; [|now left].
      change (Z.of_nat 1) with 1. rewrite Z.pow_1_r.
      pose proof (Z.div_small_iff n base ltac:(lia)). lia.
    + assert (Hq0 : 0 < n / base).
      { pose proof (Z.div_pos n base ltac:(lia) ltac:(lia)). lia. }
      destruct (IH (n / base) (String (digit_char (n mod base)) acc))
        as (j & Hj & Heq & Hlt & Hmin).
      { split; [lia|]. apply Z.div_lt_upper_bound; [lia|].
        rewrite <- Z.pow_succ_r by lia. rewrite <- Nat2Z.inj_succ. lia. }
      pose proof (Z.mul_div_le n base ltac:(lia)) as Hle.
      pose proof (Z.mod_pos_bound n base ltac:(lia)) as Hmod.
      pose proof (Z.div_mod n base ltac:(lia)) as Hdm.
      exists (S j). split; [lia|]. split; [|split].
      * rewrite Heq. cbn [fixed]. now rewrite app_assoc.
      * rewrite Nat2Z.inj_succ, Z.pow_succ_r by lia. nia.
      * right. replace (S j - 1)%nat with j by lia.
        destruct Hmin as [-> | Hmin].
        -- change (Z.of_nat 1) with 1. rewrite Z.pow_1_r. nia.
        -- replace (Z.of_nat j) with (Z.succ (Z.of_nat (j - 1))) by lia.
           rewrite Z.pow_succ_r by lia. nia.
Qed.

Lemma utoa_fixed (base n : Z) :
  1 < base -> 0 <= n ->
  exists j : nat,
    (1 <= j)%nat /\ utoa base n = fixed base j n /\
    0 <= n < base ^ Z.of_nat j /\ (j = 1%nat \/ base ^ Z.of_nat (j - 1) <= n).
Proof.
  intros Hb Hn. unfold utoa.
  destruct (utoa_aux_fixed base (Z.to_nat (Z.log2 n)) Hb n "")
    as (j & Hj & Heq & Hlt & Hmin).
  - split; [lia|]. rewrite Nat2Z.inj_succ, Z2Nat.id by apply Z.log2_nonneg.
    destruct (Z.eq_dec n 0) as [-> | Hn0].
    + simpl. lia.
    + pose proof (Z.log2_spec n ltac:(lia)) as [_ Hup].
      eapply Z.lt_le_trans; [exact Hup|].
      apply Z.pow_le_mono_l. lia.
  - exists j. rewrite app_nil_r in Heq. auto.
Qed.

(** std::hex with setw(k) and fill '0' on a number of at most k digits *)
Lemma hex_w_fixed (k : nat) (n : Z) :
  (1 <= k)%nat -> 0 <= n < 16 ^ Z.of_nat k -> hex_w k n = fixed 16 k n.
Proof.
  intros Hk Hn. unfold hex_w, setw.
  destruct (utoa_fixed 16 n ltac:(lia) ltac:(lia)) as (j & Hj & -> & Hlt & Hmin).
  rewrite length_fixed.
  assert (Hjk : (j <= k)%nat).
  { destruct Hmin as [-> | Hmin]; [lia|].
    assert (16 ^ Z.of_nat (j - 1) < 16 ^ Z.of_nat k) as Hp by lia.
    apply Z.pow_lt_mono_r_iff in Hp; lia. }
  symmetry. apply fixed_pad; [lia | lia | exact Hjk].
Qed.

Lemma digit_char_hex (d : Z) : 0 <= d < 16 -> is_lower_hex (digit_char d) = true.
Proof.
  intros Hd.
  assert (d = 0 \/ d = 1 \/ d = 2 \/ d = 3 \/ d = 4 \/ d = 5 \/ d = 6 \/ d = 7 \/
          d = 8 \/ d = 9 \/ d = 10 \/ d = 11 \/ d = 12 \/ d = 13 \/ d = 14 \/
          d = 15) as H by lia.
  repeat (destruct H as [-> | H]; [reflexivity|]). now subst.
Qed.

Lemma digit_char_digit (d : Z) : 0 <= d < 10 -> is_digit (digit_char d) = true.
Proof.
  intros Hd.
  assert (d = 0 \/ d = 1 \/ d = 2 \/ d = 3 \/ d = 4 \/ d = 5 \/ d = 6 \/ d = 7 \/
          d = 8 \/ d = 9) as H by lia.
  repeat (destruct H as [-> | H]; [reflexivity|]). now subst.
Qed.

Lemma fixed_hex (k : nat) (n : Z) : all_chars is_lower_hex (fixed 16 k n) = true.
Proof.
  revert n. induction k as [|k IH]; intros n; [reflexivity|].
  cbn [fixed]. rewrite all_chars_app, IH. cbn [all_chars].
  rewrite digit_char_hex; [reflexivity|]. apply Z.mod_pos_bound. lia.
Qed.

Lemma fixed_digits (k : nat) (n : Z) : all_chars is_digit (fixed 10 k n) = true.
Proof.
  revert n. induction k as [|k IH]; intros n; [reflexivity|].
  cbn [fixed]. rewrite all_chars_app, IH. cbn [all_chars].
  rewrite digit_char_digit; [reflexivity|]. apply Z.mod_pos_bound. lia.
Qed.

Lemma to_string_digits (n : Z) :
  0 <= n -> all_chars is_digit (to_string n) = true.
Proof.
  intros Hn. unfold to_string.
  destruct (utoa_fixed 10 n ltac:(lia) Hn) as (j & _ & -> & _).
  apply fixed_digits.
Qed.

(** The decimal conversion ends with a digit. *)
Lemma to_string_last (n : Z) :
  0 <= n -> exists (s : string) (d : ascii),
    to_string n = s +:+ String d "" /\ is_digit d = true.
Proof.
  intros Hn. unfold to_string.
  destruct (utoa_fixed 10 n ltac:(lia) Hn) as (j & Hj & -> & _).
  destruct j as [|j]; [lia|]. cbn [fixed].
  eexists _, _. split; [reflexivity|].
  apply digit_char_digit. apply Z.mod_pos_bound. lia.
Qed.

Lemma is_digit_not_nul (c : ascii) : is_digit c = true -> is_not NUL c = true.
Proof.
  unfold is_digit, is_not. intros H.
  destruct (Ascii.eqb_spec c NUL) as [-> | _]; [discriminate | reflexivity].
Qed.

Lemma fixed_mod (base : Z) (k : nat) :
  0 < base -> forall n : Z, fixed base k (n mod base ^ Z.of_nat k) = fixed base k n.
Proof.
  intros Hb. induction k as [|k IH]; intros n; [reflexivity|].
  cbn [fixed]. rewrite Nat2Z.inj_succ, Z.pow_succ_r by lia.
  assert (Hp : 0 < base ^ Z.of_nat k) by (apply Z.pow_pos_nonneg; lia).
  rewrite Z.rem_mul_r by lia.
  rewrite (Z.mul_comm base ((n / base) mod base ^ Z.of_nat k)).
  rewrite Z.div_add, Z.mod_add by lia.
  rewrite (Z.div_small (n mod base)) by (apply Z.mod_pos_bound; lia).
  rewrite Z.add_0_l, Z.mod_mod by lia.
  now rewrite IH.
Qed.

Lemma fixed_app (base : Z) (a b : nat) :
  0 < base -> forall n : Z,
  fixed base (a + b) n = fixed base a (n / base ^ Z.of_nat b) +:+ fixed base b n.
Proof.
  intros Hb. induction b as [|b IH]; intros n.
  - rewrite Nat.add_0_r. cbn [fixed]. change (Z.of_nat 0) with 0.
    now rewrite Z.pow_0_r, Z.div_1_r, app_nil_r.
  - replace (a + S b)%nat with (S (a + b)) by lia. cbn [fixed].
    rewrite IH, app_assoc. f_equal. f_equal.
    rewrite Nat2Z.inj_succ, Z.pow_succ_r by lia.
    rewrite Z.div_div; [reflexivity | lia | apply Z.pow_pos_nonneg; lia].
Qed.

Lemma is_digit_not (c d : ascii) :
  is_digit d = false -> forall a, is_digit a = true -> is_not d a = true.
Proof.
  intros Hd a Ha. unfold is_not.
  destruct (Ascii.eqb_spec a d) as [-> | _]; [congruence | reflexivity].
Qed.

(** A number in decimal has no character that is not a digit or '-'. *)
Lemma itoa_chars (d : ascii) (t : Z) :
  is_digit d = false -> d <> "-"%char -> all_chars (is_not d) (itoa t) = true.
Proof.
  intros Hd Hminus. unfold itoa.
  assert (Hu : forall n, 0 <= n -> all_chars (is_not d) (utoa 10 n) = true).
  { intros n Hn. apply (all_chars_weaken is_digit).
    - apply (is_digit_not d d Hd).
    - apply to_string_digits, Hn. }
  destruct (Z.ltb_spec t 0).
  - cbn [all_chars]. rewrite Hu by lia. unfold is_not.
    destruct (Ascii.eqb_spec "-"%char d) as [<- | _]; [congruence | reflexivity].
  - now apply Hu.
Qed.

End DigitFacts.

(** ** 32-bit words *)

Module WordFacts.
Import Tinygit Word.

Lemma high_bits_range (x n : Z) :
  0 <= n -> 0 <= x -> (forall i, n <= i -> Z.testbit x i = false) -> x < 2 ^ n.
Proof.
  intros Hn Hx Hhigh.
  assert (x mod 2 ^ n = x) as <-.
  { apply Z.bits_inj'. intros i Hi. rewrite Z.testbit_mod_pow2 by lia.
    destruct (Z.ltb_spec i n); [reflexivity|]. symmetry. apply Hhigh. lia. }
  apply Z.mod_pos_bound. apply Z.pow_pos_nonneg; lia.
Qed.

Lemma range_high_bits (x n i : Z) :
  0 <= x < 2 ^ n -> n <= i -> Z.testbit x i = false.
Proof.
  intros Hx Hi. destruct (Z.le_gt_cases 0 n) as [Hn | Hn].
  - rewrite <- (Z.mod_small x (2 ^ n)) by lia.
    apply Z.mod_pow2_bits_high. lia.
  - rewrite Z.pow_neg_r in Hx by lia. lia.
Qed.

Lemma lxor_word (x y : Z) : word x -> word y -> word (Z.lxor x y).
Proof.
  unfold word. intros Hx Hy. split.
  - apply Z.lxor_nonneg. lia.
  - apply high_bits_range; [lia | apply Z.lxor_nonneg; lia |].
    intros i Hi. rewrite Z.lxor_spec.
    rewrite (range_high_bits x 32 i), (range_high_bits y 32 i) by lia.
    reflexivity.
Qed.

(** Bitwise or of two numbers with no common bit is their sum. *)
Lemma lor_disjoint (x y k : Z) :
  0 <= k -> x mod 2 ^ k = 0 -> 0 <= y < 2 ^ k -> Z.lor x y = x + y.
Proof.
  intros Hk Hx Hy. rewrite <- (Z.add_lor_land x y).
  assert (Z.land x y = 0) as ->; [|lia].
  apply Z.bits_inj'. intros i Hi. rewrite Z.land_spec, Z.bits_0.
  destruct (Z.lt_ge_cases i k) as [Hlt | Hge].
  - assert (Z.testbit x i = false) as ->; [|reflexivity].
    rewrite <- (Z.mod_pow2_bits_low x k i) by lia. rewrite Hx. apply Z.bits_0.
  - rewrite (range_high_bits y k i) by lia. apply andb_false_r.
Qed.

Lemma rotl_word (n x : Z) : 0 < n < 32 -> word x -> word (OpenSSL.ROTL n x).
Proof.
  unfold word, OpenSSL.ROTL. intros Hn Hx.
  assert (H2n : 0 < 2 ^ n) by (apply Z.pow_pos_nonneg; lia).
  assert (H2m : 0 < 2 ^ (32 - n)) by (apply Z.pow_pos_nonneg; lia).
  assert (Hsplit : 2 ^ 32 = 2 ^ (32 - n) * 2 ^ n).
  { rewrite <- Z.pow_add_r by lia. f_equal. lia. }
  assert (Hq : 0 <= x / 2 ^ (32 - n) < 2 ^ n).
  { split; [apply Z.div_pos; lia|]. apply Z.div_lt_upper_bound; lia. }
  assert (Hm : (x * 2 ^ n) mod 2 ^ 32 = (x mod 2 ^ (32 - n)) * 2 ^ n).
  { rewrite Hsplit. rewrite Z.mul_mod_distr_r by lia. reflexivity. }
  rewrite Hm.
  pose proof (Z.mod_pos_bound x (2 ^ (32 - n)) H2m). nia.
Qed.

(** The rotation as the program writes it, (x << n) | (x >> (32 - n)). *)
Lemma rotl_impl (n x : Z) :
  0 < n < 32 -> word x ->
  Z.lor (shl32 x n) (shr32 x (32 - n)) = OpenSSL.ROTL n x.
Proof.
  unfold word, OpenSSL.ROTL, shl32, shr32, uint32. intros Hn Hx.
  rewrite Z.shiftl_mul_pow2, Z.shiftr_div_pow2 by lia.
  assert (H2n : 0 < 2 ^ n) by (apply Z.pow_pos_nonneg; lia).
  assert (H2m : 0 < 2 ^ (32 - n)) by (apply Z.pow_pos_nonneg; lia).
  assert (Hsplit : 2 ^ 32 = 2 ^ (32 - n) * 2 ^ n).
  { rewrite <- Z.pow_add_r by lia. f_equal. lia. }
  apply (lor_disjoint _ _ n); [lia | |].
  - rewrite Hsplit. rewrite Z.mul_mod_distr_r by lia.
    apply Z.mod_mul. lia.
  - split; [apply Z.div_pos; lia|]. apply Z.div_lt_upper_bound; lia.
Qed.

Lemma ch_impl (b c d : Z) :
  word d -> Z.lor (Z.land b c) (Z.land (not32 b) d) = OpenSSL.Ch b c d.
Proof.
  unfold word, not32, OpenSSL.Ch. intros Hd.
  apply Z.bits_inj'. intros i Hi.
  rewrite Z.lor_spec, Z.lxor_spec, !Z.land_spec, Z.lxor_spec, Z.lnot_spec by lia.
  change 4294967295 with (Z.ones 32).
  destruct (Z.lt_ge_cases i 32) as [Hlt | Hge].
  - rewrite Z.ones_spec_low by lia.
    destruct (Z.testbit b i), (Z.testbit c i), (Z.testbit d i); reflexivity.
  - rewrite (range_high_bits d 32 i) by lia.
    destruct (Z.testbit b i), (Z.testbit c i), (Z.testbit (Z.ones 32) i);
      reflexivity.
Qed.

Lemma maj_impl (b c d : Z) :
  Z.lor (Z.lor (Z.land b c) (Z.land b d)) (Z.land c d) = OpenSSL.Maj b c d.
Proof.
  unfold OpenSSL.Maj. apply Z.bits_inj'. intros i Hi.
  rewrite !Z.lor_spec, !Z.lxor_spec, !Z.land_spec.
  destruct (Z.testbit b i), (Z.testbit c i), (Z.testbit d i); reflexivity.
Qed.

(** The chain of 32-bit additions is the sum modulo 2^32. *)
Lemma add32_chain (r f e k w : Z) :
  add32 (add32 (add32 (add32 r f) e) k) w = (r + f + e + k + w) mod 2 ^ 32.
Proof.
  unfold add32, uint32. change (2 ^ 32) with 4294967296.
  rewrite Z.add_mod_idemp_l by lia. rewrite <- (Z.add_assoc _ k w).
  rewrite Z.add_mod_idemp_l by lia. rewrite <- (Z.add_assoc _ e (k + w)).
  rewrite Z.add_mod_idemp_l by lia. f_equal. lia.
Qed.

Lemma add32_word (x y : Z) : word (add32 x y).
Proof. unfold word, add32, uint32. apply Z.mod_pos_bound. reflexivity. Qed.

(** A byte shifted into a word, then or-ed: the big-endian word *)
Lemma be_word_impl (b0 b1 b2 b3 : Z) :
  byte b0 -> byte b1 -> byte b2 -> byte b3 ->
  Z.lor (Z.lor (Z.lor (Z.lor 0 (shl32 b0 24)) (shl32 b1 16)) (shl32 b2 8))
        (shl32 b3 0)
  = ((b0 * 256 + b1) * 256 + b2) * 256 + b3.
Proof.
  unfold byte, shl32, uint32. intros H0 H1 H2 H3.
  rewrite !Z.shiftl_mul_pow2 by lia. rewrite Z.lor_0_l.
  change (2 ^ 24) with 16777216. change (2 ^ 16) with 65536.
  change (2 ^ 8) with 256. change (2 ^ 0) with 1. change (2 ^ 32) with 4294967296.
  rewrite !Z.mod_small by lia.
  rewrite (lor_disjoint (b0 * 16777216) (b1 * 65536) 24); [|lia| |].
  2: { change (2 ^ 24) with 16777216. apply Z.mod_mul. lia. }
  2: { change (2 ^ 24) with 16777216. lia. }
  rewrite (lor_disjoint (b0 * 16777216 + b1 * 65536) (b2 * 256) 16); [|lia| |].
  2: { change (2 ^ 16) with 65536.
       replace (b0 * 16777216 + b1 * 65536) with ((b0 * 256 + b1) * 65536) by lia.
       apply Z.mod_mul. lia. }
  2: { change (2 ^ 16) with 65536. lia. }
  rewrite (lor_disjoint (b0 * 16777216 + b1 * 65536 + b2 * 256) (b3 * 1) 8);
    [lia|lia| |].
  - change (2 ^ 8) with 256.
    replace (b0 * 16777216 + b1 * 65536 + b2 * 256)
      with (((b0 * 256 + b1) * 256 + b2) * 256) by lia.
    apply Z.mod_mul. lia.
  - change (2 ^ 8) with 256. lia.
Qed.

Lemma be_word_word (b0 b1 b2 b3 : Z) :
  byte b0 -> byte b1 -> byte b2 -> byte b3 ->
  word (((b0 * 256 + b1) * 256 + b2) * 256 + b3).
Proof. unfold byte, word. change (2 ^ 32) with 4294967296. lia. Qed.

(** (x >> 8k) & 0xFF is the k-th byte *)
Lemma byte_impl (x : Z) (k : nat) :
  Z.land (Z.shiftr x (Z.of_nat k * 8)) 255 = (x / 256 ^ Z.of_nat k) mod 256.
Proof.
  rewrite Z.shiftr_div_pow2 by lia. change 255 with (Z.ones 8).
  rewrite Z.land_ones by lia. change (2 ^ 8) with 256.
  rewrite (Z.mul_comm (Z.of_nat k)), Z.pow_mul_r by lia. reflexivity.
Qed.

End WordFacts.

(** ** The hand-written SHA-1 computes the Secure Hash Algorithm *)

Module Sha1Facts.
Import Tinygit Word WordFacts.

Lemma fold_left_inv {A B : Type} (P : A -> Prop) (f g : A -> B -> A)
  (l : list B) (a : A) :
  P a ->
  (forall x i, P x -> In i l -> f x i = g x i /\ P (g x i)) ->
  fold_left f l a = fold_left g l a /\ P (fold_left g l a).
Proof.
  revert a. induction l as [|i l IH]; intros a Ha Hstep; simpl; [auto|].
  destruct (Hstep a i Ha (or_introl eq_refl)) as [-> HP].
  apply IH; [exact HP|]. intros x j Hx Hj. apply Hstep; [exact Hx | now right].
Qed.

Lemma word_0 : word 0.
Proof. unfold word. split; [lia | reflexivity]. Qed.

Lemma nth_word (W : list Z) (i : nat) : Forall word W -> word (nth i W 0).
Proof.
  intros HW. destruct (Nat.lt_ge_cases i (length W)) as [Hlt | Hge].
  - rewrite Forall_forall in HW. apply HW. apply list_elem_of_In.
    now apply nth_In.
  - rewrite nth_overflow by lia. apply word_0.
Qed.

Lemma nth_byte (bs : list Z) (i : nat) : Forall byte bs -> byte (nth i bs 0).
Proof.
  intros HB. destruct (Nat.lt_ge_cases i (length bs)) as [Hlt | Hge].
  - rewrite Forall_forall in HB. apply HB. apply list_elem_of_In.
    now apply nth_In.
  - rewrite nth_overflow by lia. unfold byte. lia.
Qed.

(** *** Padding *)

Lemma to_bytes_byte (s : string) : Forall byte (Str.to_bytes s).
Proof.
  induction s as [|c s IH]; simpl; constructor; [|exact IH].
  unfold byte. pose proof (N_ascii_bounded c). lia.
Qed.

Lemma pad_zeros_test (L : Z) :
  0 <= L ->
  (Str.size_t (L * 8) mod 512 =? 448) = ((56 - L) mod 64 =? 0).
Proof.
  intros HL. unfold Str.size_t.
  rewrite Z.mod_mod_divide by (exists (2 ^ 55); reflexivity).
  destruct (Z.eqb_spec ((56 - L) mod 64) 0) as [H0 | H0];
    [apply Z.eqb_eq | apply Z.eqb_neq]; Z.div_mod_to_equations; lia.
Qed.

Lemma pad_zeros_spec (fuel : nat) :
  forall padded : list Z,
  (56 - Z.of_nat (length padded)) mod 64 <= Z.of_nat fuel ->
  pad_zeros fuel padded =
  padded ++ repeat 0 (Z.to_nat ((56 - Z.of_nat (length padded)) mod 64)).
Proof.
  induction fuel as [|fuel IH]; intros padded Hfuel;
    pose proof (Z.mod_pos_bound (56 - Z.of_nat (length padded)) 64 eq_refl) as Hr0.
  - assert ((56 - Z.of_nat (length padded)) mod 64 = 0) as -> by lia.
    simpl. now rewrite app_nil_r.
  - cbn [pad_zeros]. rewrite pad_zeros_test by lia.
    destruct (Z.eqb_spec ((56 - Z.of_nat (length padded)) mod 64) 0) as [H0 | H0];
      cbn [negb].
    + rewrite H0. simpl. now rewrite app_nil_r.
    + assert (Hr : (56 - Z.of_nat (length (padded ++ [0]))) mod 64
                   = (56 - Z.of_nat (length padded)) mod 64 - 1).
      { rewrite length_app. simpl length. Z.div_mod_to_equations. lia. }
      rewrite IH by (rewrite Hr; lia). rewrite Hr, <- app_assoc. f_equal.
      replace (Z.to_nat ((56 - Z.of_nat (length padded)) mod 64))
        with (S (Z.to_nat ((56 - Z.of_nat (length padded)) mod 64 - 1))) by lia.
      reflexivity.
Qed.

Lemma push_length_spec (padded : list Z) (bit_len : Z) :
  push_length padded bit_len = padded ++ OpenSSL.be_bytes 8 bit_len.
Proof.
  unfold push_length. cbn [fold_left OpenSSL.be_bytes].
  rewrite !byte_impl. rewrite <- !app_assoc. reflexivity.
Qed.

Lemma padding_spec (data : string) :
  padding data = OpenSSL.pad (Str.to_bytes data).
Proof.
  unfold padding, OpenSSL.pad. rewrite push_length_spec.
  set (msg := Str.to_bytes data).
  rewrite pad_zeros_spec.
  - rewrite <- !app_assoc. f_equal. f_equal. f_equal.
    + f_equal. f_equal. rewrite length_app. simpl length.
      Z.div_mod_to_equations. lia.
    + unfold uint64. f_equal. f_equal. lia.
  - pose proof (Z.mod_pos_bound (56 - Z.of_nat (length (msg ++ [128]))) 64).
    lia.
Qed.

Lemma be_bytes_byte (n : nat) (x : Z) : Forall byte (OpenSSL.be_bytes n x).
Proof.
  induction n as [|n IH]; simpl; constructor; [|exact IH].
  unfold byte. apply Z.mod_pos_bound. lia.
Qed.

Lemma length_be_bytes (n : nat) (x : Z) : length (OpenSSL.be_bytes n x) = n.
Proof. induction n as [|n IH]; simpl; [reflexivity | now f_equal]. Qed.

Lemma pad_byte (msg : list Z) : Forall byte msg -> Forall byte (OpenSSL.pad msg).
Proof.
  intros Hmsg. unfold OpenSSL.pad. rewrite !Forall_app. repeat split.
  - exact Hmsg.
  - constructor; [unfold byte; lia | constructor].
  - apply Forall_forall. intros x Hx%list_elem_of_In%repeat_spec. subst.
    unfold byte. lia.
  - apply be_bytes_byte.
Qed.

(** The padded message is a whole number of 64-byte blocks. *)
Lemma length_pad (msg : list Z) :
  exists N : nat, length (OpenSSL.pad msg) = (N * 64)%nat.
Proof.
  unfold OpenSSL.pad. rewrite !length_app, repeat_length, length_be_bytes.
  simpl length.
  set (len := Z.of_nat (length msg)).
  set (r := ((448 - (8 * len + 1)) mod 512 - 7) / 8).
  assert (Hr : 0 <= r /\ (len + 9 + r) mod 64 = 0).
  { subst r. Z.div_mod_to_equations. lia. }
  destruct Hr as [Hr0 Hr].
  exists (Z.to_nat ((len + 9 + r) / 64)).
  assert (Hlen : 0 <= len) by (subst len; lia).
  apply Nat2Z.inj. rewrite Nat2Z.inj_mul.
  rewrite Z2Nat.id by (apply Z.div_pos; lia).
  rewrite !Nat2Z.inj_add, Z2Nat.id by lia. fold len.
  change (Z.of_nat 64) with 64. change (Z.of_nat 1) with 1.
  change (Z.of_nat 8) with 8. Z.div_mod_to_equations. lia.
Qed.

(** *** The message schedule *)

Lemma fold_set_seq (g : nat -> Z) (n : nat) :
  forall w : list Z, (n <= length w)%nat ->
  fold_left (fun w i => set_ w i (g i)) (seq 0 n) w = map g (seq 0 n) ++ skipn n w.
Proof.
  induction n as [|n IH]; intros w Hn; [reflexivity|].
  rewrite seq_S, fold_left_app, IH by lia. cbn [fold_left Nat.add].
  rewrite map_app. cbn [map]. unfold set_.
  rewrite insert_app_r_alt by (rewrite length_map, length_seq; lia).
  rewrite length_map, length_seq, Nat.sub_diag.
  replace (skipn (S n) w) with (skipn 1 (skipn n w))
    by (rewrite skipn_skipn; reflexivity).
  destruct (skipn n w) as [|x rest] eqn:Hsk.
  - apply (f_equal (@length Z)) in Hsk. rewrite length_skipn in Hsk.
    simpl in Hsk. lia.
  - cbn. now rewrite <- app_assoc.
Qed.

(** The words of a [m]-word block, by index *)
Lemma words_spec (m : nat) :
  forall bs : list Z, length bs = (4 * m)%nat ->
  OpenSSL.words bs =
  map (fun i => ((nth (4 * i) bs 0 * 256 + nth (4 * i + 1) bs 0) * 256
                 + nth (4 * i + 2) bs 0) * 256 + nth (4 * i + 3) bs 0)
      (seq 0 m).
Proof.
  induction m as [|m IH]; intros bs Hlen.
  - destruct bs; [reflexivity | discriminate].
  - destruct bs as [|b0 [|b1 [|b2 [|b3 rest]]]]; simpl in Hlen; try lia.
    cbn [OpenSSL.words]. rewrite (IH rest) by lia.
    cbn [seq map]. f_equal. rewrite <- seq_shift, map_map.
    apply map_ext. intros i.
    replace (4 * S i)%nat with (S (S (S (S (4 * i))))) by lia.
    reflexivity.
Qed.

Lemma words_word (m : nat) :
  forall bs : list Z, length bs = (4 * m)%nat -> Forall byte bs ->
  Forall word (OpenSSL.words bs).
Proof.
  intros bs Hlen Hbs. rewrite (words_spec m) by exact Hlen.
  apply Forall_forall. intros x Hx%list_elem_of_In%in_map_iff.
  destruct Hx as (i & <- & _). apply be_word_word; now apply nth_byte.
Qed.

Lemma length_words (m : nat) :
  forall bs : list Z, length bs = (4 * m)%nat -> length (OpenSSL.words bs) = m.
Proof.
  intros bs Hlen. rewrite (words_spec m) by exact Hlen.
  now rewrite length_map, length_seq.
Qed.

(** Lines 45-50 load the sixteen words of the block at [offset]. *)
Lemma load_block_spec (padded : list Z) (offset : nat) (w : list Z) :
  Forall byte padded -> (offset + 64 <= length padded)%nat ->
  (16 <= length w)%nat ->
  load_block padded offset w =
  OpenSSL.words (firstn 64 (skipn offset padded)) ++ skipn 16 w.
Proof.
  intros Hbytes Hoff Hw. unfold load_block.
  rewrite (fold_set_seq (load_word padded offset)) by exact Hw.
  f_equal. rewrite (words_spec 16).
  2: { rewrite length_firstn, length_skipn. lia. }
  apply map_ext_in. intros i Hi%in_seq.
  unfold load_word. cbn [fold_left seq]. unfold at_.
  rewrite be_word_impl by (now apply nth_byte).
  rewrite !nth_firstn, !nth_skipn.
  repeat match goal with
         | |- context [(?a <? 64)%nat] =>
             destruct (Nat.ltb_spec a 64); [|lia]
         end.
  replace (offset + i * 4 + 0)%nat with (offset + 4 * i)%nat by lia.
  replace (offset + i * 4 + 1)%nat with (offset + (4 * i + 1))%nat by lia.
  replace (offset + i * 4 + 2)%nat with (offset + (4 * i + 2))%nat by lia.
  replace (offset + i * 4 + 3)%nat with (offset + (4 * i + 3))%nat by lia.
  reflexivity.
Qed.

Lemma rotl1_impl (x : Z) :
  word x -> Z.lor (shl32 x 1) (shr32 x 31) = OpenSSL.ROTL 1 x.
Proof. intros Hx. apply (rotl_impl 1 x); [lia | exact Hx]. Qed.

(** Lines 53-56 extend the schedule as step 1 of 6.1.2 does. *)
Lemma extend_fold (n : nat) :
  forall W rest : list Z,
  (16 <= length W)%nat -> Forall word W -> (n <= length rest)%nat ->
  fold_left extend_step (seq (length W) n) (W ++ rest)
  = OpenSSL.W_extend n W ++ skipn n rest /\
  Forall word (OpenSSL.W_extend n W) /\
  length (OpenSSL.W_extend n W) = (length W + n)%nat.
Proof.
  induction n as [|n IH]; intros W rest HW Hword Hrest.
  - cbn. rewrite Nat.add_0_r. auto.
  - destruct rest as [|r0 rest]; [simpl in Hrest; lia|].
    cbn [seq fold_left OpenSSL.W_extend skipn].
    set (t := length W).
    set (x := Z.lxor (Z.lxor (Z.lxor (nth (t - 3) W 0) (nth (t - 8) W 0))
                             (nth (t - 14) W 0)) (nth (t - 16) W 0)).
    assert (Hx : word x).
    { subst x. repeat apply lxor_word; now apply nth_word. }
    assert (Hstep : extend_step (W ++ r0 :: rest) t
                    = (W ++ [OpenSSL.ROTL 1 x]) ++ rest).
    { unfold extend_step, set_, at_.
      rewrite !app_nth1 by (subst t; lia). fold x.
      unfold t.
      rewrite insert_app_r_alt by lia. rewrite Nat.sub_diag.
      cbn [list_insert insert].
      rewrite !nth_middle. rewrite rotl1_impl by exact Hx.
      rewrite insert_app_r_alt by lia. rewrite Nat.sub_diag.
      cbn. now rewrite <- app_assoc. }
    rewrite Hstep.
    replace (S t) with (length (W ++ [OpenSSL.ROTL 1 x]))
      by (rewrite length_app; simpl; subst t; lia).
    destruct (IH (W ++ [OpenSSL.ROTL 1 x]) rest) as (Hf & Hw & Hl).
    + rewrite length_app. simpl. lia.
    + apply Forall_app. split; [exact Hword|].
      constructor; [|constructor]. apply rotl_word; [lia | exact Hx].
    + simpl in Hrest. lia.
    + split; [exact Hf|]. split; [exact Hw|].
      rewrite Hl, length_app. simpl. subst t. lia.
Qed.

(** *** The eighty rounds *)

Lemma round_step (w : list Z) (st : Z * Z * Z * Z * Z) (i : nat) :
  word5 st -> round w st i = OpenSSL.step w st i /\ word5 (OpenSSL.step w st i).
Proof.
  destruct st as [[[[a b] c] d] e]. intros (Ha & Hb & Hc & Hd & He).
  split.
  - unfold round, OpenSSL.step, OpenSSL.f, OpenSSL.K, OpenSSL.Parity, at_.
    rewrite (rotl_impl 5 a ltac:(lia) Ha : Z.lor (shl32 a 5) (shr32 a 27) = _).
    rewrite (rotl_impl 30 b ltac:(lia) Hb : Z.lor (shl32 b 30) (shr32 b 2) = _).
    destruct (i <? 20)%nat; [|destruct (i <? 40)%nat; [|destruct (i <? 60)%nat]];
      rewrite ?ch_impl, ?maj_impl by assumption; rewrite add32_chain;
      reflexivity.
  - unfold OpenSSL.step, word5. repeat split; try apply Ha; try apply Hb;
      try apply Hc; try apply Hd.
    + apply Z.mod_pos_bound. reflexivity.
    + apply Z.mod_pos_bound. reflexivity.
    + apply rotl_word; [lia | exact Hb].
    + apply rotl_word; [lia | exact Hb].
Qed.

Lemma rounds_spec (w : list Z) (h : Z * Z * Z * Z * Z) (l : list nat) :
  word5 h ->
  fold_left (round w) l h = fold_left (OpenSSL.step w) l h.
Proof.
  intros Hh.
  apply (fold_left_inv word5 (round w) (OpenSSL.step w) l h Hh).
  intros x i Hx _. now apply round_step.
Qed.

Lemma compress_block_word5 (h : Z * Z * Z * Z * Z) (block : list Z) :
  word5 (OpenSSL.compress_block h block).
Proof.
  unfold OpenSSL.compress_block. destruct h as [[[[h0 h1] h2] h3] h4].
  destruct (fold_left _ _ _) as [[[[a b] c] d] e].
  unfold word5, word. repeat split; apply Z.mod_pos_bound; reflexivity.
Qed.

(** One turn of the loop over blocks (lines 42-91) is steps 1 to 4 of
    6.1.2 on the block at [offset]. *)
Lemma process_block_spec (padded : list Z) (h : Z * Z * Z * Z * Z)
  (offset : nat) :
  Forall byte padded -> (offset + 64 <= length padded)%nat -> word5 h ->
  process_block padded h offset
  = OpenSSL.compress_block h (firstn 64 (skipn offset padded)).
Proof.
  intros Hbytes Hoff Hh.
  unfold process_block, OpenSSL.compress_block, OpenSSL.schedule.
  destruct h as [[[[h0 h1] h2] h3] h4].
  rewrite load_block_spec by (try assumption; rewrite repeat_length; lia).
  set (block := firstn 64 (skipn offset padded)).
  assert (Hlen : length block = (4 * 16)%nat).
  { subst block. rewrite length_firstn, length_skipn. lia. }
  assert (Hblock : Forall byte block).
  { subst block. apply Forall_take, Forall_drop, Hbytes. }
  pose proof (words_word 16 block Hlen Hblock) as Hwords.
  pose proof (length_words 16 block Hlen) as Hlw.
  unfold extend.
  destruct (extend_fold 64 (OpenSSL.words block) (skipn 16 (repeat 0 80)))
    as (Hext & _ & _); [lia | exact Hwords | cbn; lia |].
  rewrite Hlw in Hext. rewrite Hext.
  change (skipn 64 (skipn 16 (repeat 0 80))) with (@nil Z).
  rewrite app_nil_r.
  rewrite rounds_spec by exact Hh. clear Hext.
  destruct (fold_left (OpenSSL.step _) _ _) as [[[[a b] c] d] e].
  unfold add32, uint32.
  now rewrite (Z.add_comm h0), (Z.add_comm h1), (Z.add_comm h2),
    (Z.add_comm h3), (Z.add_comm h4).
Qed.

(** *** The loop over blocks *)

Lemma blocks_fold (padded : list Z) (N : nat) :
  Forall byte padded ->
  forall (start : nat) (h : Z * Z * Z * Z * Z),
  word5 h -> (64 * (start + N) <= length padded)%nat ->
  fold_left (process_block padded)
            (map (fun k => (64 * k)%nat) (seq start N)) h
  = fold_left OpenSSL.compress_block
              (OpenSSL.blocks N (skipn (64 * start) padded)) h.
Proof.
  intros Hbytes. induction N as [|N IH]; intros start h Hh Hlen;
    [reflexivity|].
  cbn [seq map fold_left OpenSSL.blocks].
  rewrite process_block_spec by (try assumption; lia).
  rewrite IH by (try apply compress_block_word5; lia).
  rewrite skipn_skipn. do 3 f_equal. lia.
Qed.

Lemma h_init_word5 : word5 h_init.
Proof. unfold h_init, word5, word. repeat split; (lia || reflexivity). Qed.

Lemma hash_words_spec (data : string) :
  let padded := OpenSSL.pad (Str.to_bytes data) in
  hash_words data
  = fold_left OpenSSL.compress_block
              (OpenSSL.blocks (length padded / 64) padded) OpenSSL.H_0
  /\ word5 (hash_words data).
Proof.
  intros padded. unfold hash_words. rewrite padding_spec. fold padded.
  destruct (length_pad (Str.to_bytes data)) as [N HN]. fold padded in HN.
  assert (Hbytes : Forall byte padded)
    by (apply pad_byte, to_bytes_byte).
  unfold offsets. rewrite HN.
  rewrite Nat.div_add_l, Nat.div_mul by lia.
  change (63 / 64)%nat with 0%nat. rewrite Nat.add_0_r.
  assert (Heq : fold_left (process_block padded)
                  (map (fun k => (64 * k)%nat) (seq 0 N)) h_init
                = fold_left OpenSSL.compress_block
                    (OpenSSL.blocks N padded) OpenSSL.H_0).
  { rewrite (blocks_fold padded N Hbytes 0 h_init h_init_word5) by lia.
    reflexivity. }
  split; [exact Heq|]. rewrite Heq.
  destruct N as [|N].
  - apply h_init_word5.
  - assert (Hsnoc : forall (l : list (list Z)) h,
               l <> [] -> word5 (fold_left OpenSSL.compress_block l h)).
    { intros l. induction l as [|b l IHl] using rev_ind; [congruence|].
      intros h _. rewrite fold_left_app. apply compress_block_word5. }
    apply Hsnoc. discriminate.
Qed.

(** *** The hexadecimal rendering *)

Lemma hex_byte (b : Z) : byte b -> Str.hex_w 2 b = Str.fixed 16 2 b.
Proof.
  unfold byte. intros Hb. apply DigitFacts.hex_w_fixed; [lia|].
  change (16 ^ Z.of_nat 2) with 256. lia.
Qed.

(** setw(8) on a word writes the same sixteen digits as setw(2) on each of
    its four bytes. *)
Lemma hex_word_bytes (h : Z) :
  word h ->
  Str.hex_w 8 h =
  Str.concat (map (Str.hex_w 2) (OpenSSL.be_bytes 4 h)).
Proof.
  unfold word. intros Hh.
  rewrite DigitFacts.hex_w_fixed by (try lia; exact Hh).
  cbn [OpenSSL.be_bytes map Str.concat].
  rewrite !hex_byte by (unfold byte; apply Z.mod_pos_bound; lia).
  change 256 with (16 ^ Z.of_nat 2) at 2 4 6 8.
  rewrite !DigitFacts.fixed_mod by lia.
  change (16 ^ Z.of_nat 2) with 256.
  change 8%nat with (6 + 2)%nat. rewrite DigitFacts.fixed_app by lia.
  change 6%nat with (4 + 2)%nat. rewrite DigitFacts.fixed_app by lia.
  change 4%nat with (2 + 2)%nat at 1. rewrite DigitFacts.fixed_app by lia.
  change (16 ^ Z.of_nat 2) with 256.
  rewrite !Z.div_div by lia.
  rewrite StrFacts.app_nil_r, !StrFacts.app_assoc.
  change (256 ^ Z.of_nat 3) with (256 * 256 * 256).
  change (256 ^ Z.of_nat 2) with (256 * 256).
  change (256 ^ Z.of_nat 1) with 256.
  change (256 ^ Z.of_nat 0) with 1. rewrite Z.div_1_r.
  reflexivity.
Qed.

Lemma concat_app (l1 l2 : list string) :
  Str.concat (l1 ++ l2) = Str.concat l1 +:+ Str.concat l2.
Proof.
  induction l1 as [|s l1 IH]; simpl; [reflexivity|].
  now rewrite IH, StrFacts.app_assoc.
Qed.

(** Lines 27-28 of part_000 visit the digest byte by byte. *)
Lemma map_nth_seq (hash : list Z) :
  map (fun i => Str.hex_w 2 (nth i hash 0)) (seq 0 (length hash))
  = map (Str.hex_w 2) hash.
Proof.
  induction hash as [|b hash IH]; [reflexivity|].
  cbn [length seq map nth]. f_equal.
  rewrite <- seq_shift, map_map. exact IH.
Qed.

Lemma length_SHA1 (data : string) :
  length (OpenSSL.SHA1 data) = OpenSSL.SHA_DIGEST_LENGTH.
Proof.
  unfold OpenSSL.SHA1. destruct (fold_left _ _ _) as [[[[H0 H1] H2] H3] H4].
  reflexivity.
Qed.

(** The two renderings of the same digest agree. *)
Lemma sha1_spec (data : string) : sha1 data = Tinygit2.sha1 data.
Proof.
  unfold Tinygit2.sha1. rewrite <- (length_SHA1 data), map_nth_seq.
  unfold sha1, OpenSSL.SHA1.
  destruct (hash_words_spec data) as [Heq Hw]. cbv zeta in Heq.
  rewrite <- Heq. destruct (hash_words data) as [[[[h0 h1] h2] h3] h4].
  destruct Hw as (W0 & W1 & W2 & W3 & W4).
  rewrite !map_app, !concat_app.
  now rewrite <- !hex_word_bytes by assumption.
Qed.

Lemma hex_word_format (h : Z) :
  word h ->
  String.length (Str.hex_w 8 h) = 8%nat /\
  Str.all_chars Str.is_lower_hex (Str.hex_w 8 h) = true.
Proof.
  unfold word. intros Hh.
  rewrite DigitFacts.hex_w_fixed by (try lia; exact Hh).
  split; [apply DigitFacts.length_fixed | apply DigitFacts.fixed_hex].
Qed.

(** The identifier is forty lowercase hexadecimal digits. *)
Lemma sha1_format (data : string) :
  String.length (sha1 data) = 40%nat /\
  Str.all_chars Str.is_lower_hex (sha1 data) = true.
Proof.
  unfold sha1. destruct (hash_words_spec data) as [_ Hw].
  destruct (hash_words data) as [[[[h0 h1] h2] h3] h4].
  destruct Hw as (W0 & W1 & W2 & W3 & W4).
  destruct (hex_word_format h0 W0) as [L0 C0].
  destruct (hex_word_format h1 W1) as [L1 C1].
  destruct (hex_word_format h2 W2) as [L2 C2].
  destruct (hex_word_format h3 W3) as [L3 C3].
  destruct (hex_word_format h4 W4) as [L4 C4].
  rewrite !StrFacts.length_app, !StrFacts.all_chars_app.
  rewrite L0, L1, L2, L3, L4, C0, C1, C2, C3, C4. split; reflexivity.
Qed.

End Sha1Facts.

(** ** Files and directories *)

Module EnvFacts.
Import Str StrFacts Env.

Lemma split_no_slash (b : string) :
  all_chars (is_not slash) b = true -> split_last_slash b = None.
Proof.
  induction b as [|c b IH]; [reflexivity|]. cbn [all_chars split_last_slash].
  intros [Hc Hb]%andb_true_iff. rewrite (IH Hb).
  unfold is_not in Hc. apply negb_true_iff in Hc. now rewrite Hc.
Qed.

(** The last '/' of dir/base is the one in the middle when [base] has
    none. *)
Lemma split_dir_base (d b : string) :
  all_chars (is_not slash) b = true ->
  split_last_slash (d +:+ "/" +:+ b) = Some (d, b).
Proof.
  intros Hb. induction d as [|c d IH].
  - cbn. now rewrite (split_no_slash b Hb).
  - change (String c d +:+ "/" +:+ b) with (String c (d +:+ "/" +:+ b)).
    cbn [split_last_slash]. now rewrite IH.
Qed.

Lemma ancestors_from_self (p : string) :
  forall pre : string, In (pre +:+ p) (ancestors_from pre p).
Proof.
  induction p as [|c p IH]; intros pre; cbn [ancestors_from].
  - rewrite app_nil_r. now left.
  - replace (pre +:+ String c p) with ((pre +:+ String c "") +:+ p)
      by (now rewrite app_assoc).
    destruct (Ascii.eqb c slash); [right|]; apply IH.
Qed.

Lemma ancestors_self (p : string) : In p (ancestors p).
Proof. apply (ancestors_from_self p ""). Qed.

Lemma hex_not_slash (s : string) :
  all_chars is_lower_hex s = true -> all_chars (is_not slash) s = true.
Proof.
  apply all_chars_weaken. intros c Hc. unfold is_not.
  destruct (Ascii.eqb_spec c slash) as [-> | _]; [discriminate | reflexivity].
Qed.

(** Once [dir] has been created, a file [dir/base] can be. *)
Lemma can_create_in (dir base : string) (w : world) :
  all_chars (is_not slash) base = true -> base <> "" ->
  dir ∈ dirs w ->
  can_create (dir +:+ "/" +:+ base) w = true.
Proof.
  intros Hb Hne Hd. unfold can_create. rewrite (split_dir_base dir base Hb).
  rewrite bool_decide_eq_true_2 by exact Hd.
  destruct (String.eqb_spec base ""); [contradiction | reflexivity].
Qed.

Lemma parent_of_file (dir base : string) :
  all_chars (is_not slash) base = true ->
  parent_path (dir +:+ "/" +:+ base) = dir.
Proof. intros Hb. unfold parent_path. now rewrite split_dir_base. Qed.

(** create_directories(dir) followed by a write to dir/base stores the
    file. *)
Lemma create_then_write (dir base content : string) (w : world) :
  all_chars (is_not slash) base = true -> base <> "" ->
  (create_directories dir ;; ofstream_write (dir +:+ "/" +:+ base) content) w
  = Ret (tt, Layout.with_file dir (dir +:+ "/" +:+ base) content w).
Proof.
  intros Hb Hne. unfold mbind, create_directories, ofstream_write.
  rewrite can_create_in; [reflexivity | exact Hb | exact Hne |].
  cbn. apply elem_of_union_l, elem_of_list_to_set, list_elem_of_In,
    ancestors_self.
Qed.

Lemma lookup_with_file (dir path content : string) (w : world) :
  files (Layout.with_file dir path content w) !! path = Some content.
Proof. apply lookup_insert_eq. Qed.

(** Storing the same file twice changes nothing the second time. *)
Lemma with_file_idem (dir path content : string) (w : world) :
  Layout.with_file dir path content (Layout.with_file dir path content w)
  = Layout.with_file dir path content w.
Proof.
  unfold Layout.with_file. cbn. f_equal.
  - apply insert_insert_eq.
  - rewrite union_assoc_L, union_idemp_L. reflexivity.
Qed.

End EnvFacts.

(** ** The object store *)

Module StoreFacts.
Import Str StrFacts.

Lemma object_path_dir (id : string) :
  Layout.object_dir id +:+ "/" +:+ Layout.shard_file id = Layout.object_path id.
Proof. unfold Layout.object_dir, Layout.object_path. now rewrite app_assoc. Qed.

Lemma substr_prefix (s : string) (n : nat) :
  substr s 0 (Z.of_nat n) = Ret (take n s).
Proof.
  rewrite substr_ok by (pose proof (size_nonneg s); lia).
  now rewrite Nat2Z.id.
Qed.

Lemma substr_rest (s : string) (n : nat) :
  (n <= String.length s)%nat -> substr_from s (Z.of_nat n) = Ret (drop n s).
Proof.
  intros Hn. rewrite substr_from_ok by (unfold size; lia).
  now rewrite Nat2Z.id.
Qed.

(** The file name of an object identifier: 38 characters, no '/'. *)
Lemma shard_file_ok (id : string) :
  Layout.is_object_id id ->
  all_chars (is_not Env.slash) (Layout.shard_file id) = true /\
  Layout.shard_file id <> "" /\
  String.length (Layout.shard_file id) = 38%nat /\
  String.length (Layout.shard_dir id) = 2%nat.
Proof.
  intros [Hlen Hhex]. unfold Layout.shard_file, Layout.shard_dir.
  assert (Hl : String.length (drop 2 id) = 38%nat)
    by (rewrite length_drop, Hlen; reflexivity).
  repeat split.
  - apply EnvFacts.hex_not_slash, all_chars_drop, Hhex.
  - intros Heq. rewrite Heq in Hl. discriminate.
  - exact Hl.
  - rewrite length_take, Hlen. reflexivity.
Qed.

Section WithZlib.
Context {zl : Zlib}.

(** The do-while loops of tinygit.cpp deliver the whole stream. *)
Lemma deflate_loop_spec (fuel : nat) :
  forall (zs : Z_.z_stream) (acc : string),
  (String.length (Z_.pending zs) <= fuel)%nat ->
  Tinygit.deflate_loop fuel zs acc = acc +:+ Z_.pending zs.
Proof.
  induction fuel as [|fuel IH]; intros zs acc Hfuel;
    cbn [Tinygit.deflate_loop]; unfold Z_.call;
    pose proof (take_drop 1024 (Z_.pending zs)) as Htd;
    destruct (String.eqb_spec (drop 1024 (Z_.pending zs)) "") as [He | He].
  - rewrite He, app_nil_r in Htd. rewrite Htd.
    now destruct (Z_.final zs =? Z_.Z_OK).
  - exfalso. apply He. apply drop_all. lia.
  - rewrite He, app_nil_r in Htd. rewrite Htd.
    destruct (Z_.final zs =? Z_.Z_OK); [|reflexivity].
    rewrite IH by (cbn [Z_.pending]; rewrite He; cbn; lia).
    cbn [Z_.pending]. now rewrite He, app_nil_r.
  - change (Z_.Z_OK =? Z_.Z_OK) with true. cbv iota.
    rewrite IH by (cbn [Z_.pending]; rewrite length_drop; lia).
    cbn [Z_.pending]. now rewrite app_assoc, Htd.
Qed.

Lemma inflate_loop_spec (fuel : nat) :
  forall (zs : Z_.z_stream) (acc : string),
  (String.length (Z_.pending zs) <= fuel)%nat ->
  Tinygit.inflate_loop fuel zs acc = acc +:+ Z_.pending zs.
Proof.
  induction fuel as [|fuel IH]; intros zs acc Hfuel;
    cbn [Tinygit.inflate_loop]; unfold Z_.call;
    pose proof (take_drop 1024 (Z_.pending zs)) as Htd;
    destruct (String.eqb_spec (drop 1024 (Z_.pending zs)) "") as [He | He].
  - rewrite He, app_nil_r in Htd. rewrite Htd.
    now destruct (Z_.final zs =? Z_.Z_OK).
  - exfalso. apply He. apply drop_all. lia.
  - rewrite He, app_nil_r in Htd. rewrite Htd.
    destruct (Z_.final zs =? Z_.Z_OK); [|reflexivity].
    rewrite IH by (cbn [Z_.pending]; rewrite He; cbn; lia).
    cbn [Z_.pending]. now rewrite He, app_nil_r.
  - change (Z_.Z_OK =? Z_.Z_OK) with true. cbv iota.
    rewrite IH by (cbn [Z_.pending]; rewrite length_drop; lia).
    cbn [Z_.pending]. now rewrite app_assoc, Htd.
Qed.

(** *** tinygit.cpp *)

(** What write_object of tinygit.cpp hashes and stores: the literal
    "\0" adds nothing, so there is no NUL between size and payload. *)
Lemma tinygit_write_object_spec (data type : string) (w : world) :
  let store := type +:+ " " +:+ to_string (size data) +:+ data in
  let sha := Tinygit.sha1 store in
  Tinygit.write_object data type w
  = Ret (sha, Layout.with_file (Layout.object_dir sha) (Layout.object_path sha)
                (deflate_stream store) w).
Proof.
  intros store sha. unfold Tinygit.write_object.
  change (Tinygit.c_str nul) with "".
  rewrite app_nil_r, !app_assoc. fold store. fold sha.
  destruct (Sha1Facts.sha1_format store) as [Hlen Hhex]. fold sha in Hlen, Hhex.
  destruct (shard_file_ok sha (conj Hlen Hhex)) as (Hns & Hne & _ & _).
  unfold mbind at 1. unfold lift at 1.
  rewrite (substr_prefix sha 2 : substr sha 0 2 = _). cbn [bind].
  unfold mbind at 1. unfold lift at 1.
  rewrite (substr_rest sha 2 ltac:(rewrite Hlen; lia) : substr_from sha 2 = _).
  cbn [bind].
  rewrite deflate_loop_spec by (cbn; lia).
  change (mbind ?m (fun _ => mbind ?n ?k) w)
    with (mbind (mbind m (fun _ => n)) k w).
  unfold mbind at 1.
  fold (Layout.shard_dir sha). fold (Layout.shard_file sha).
  fold (Layout.object_dir sha).
  rewrite (EnvFacts.create_then_write (Layout.object_dir sha)
             (Layout.shard_file sha)) by assumption.
  rewrite object_path_dir. reflexivity.
Qed.

(** read_object of tinygit.cpp: the bytes inflate produces for the file
    at the object path (nothing for a missing file), cut after the
    first NUL; when there is no NUL, npos + 1 wraps to 0 and nothing is
    cut. *)
Lemma tinygit_read_object_spec (sha : string) (w : world) :
  (2 <= String.length sha)%nat ->
  let result :=
    fst (inflate_stream (default "" (files w !! Layout.object_path sha))) in
  Tinygit.read_object sha w
  = lift (substr_from result (size_t (find result NUL + 1))) w.
Proof.
  intros Hlen result. unfold Tinygit.read_object.
  unfold mbind at 1. unfold lift at 1.
  rewrite (substr_prefix sha 2 : substr sha 0 2 = _). cbn [bind].
  unfold mbind at 1. unfold lift at 1.
  rewrite (substr_rest sha 2 Hlen : substr_from sha 2 = _). cbn [bind].
  unfold mbind at 1. unfold Env.ifstream_open.
  fold (Layout.shard_dir sha). fold (Layout.shard_file sha).
  fold (Layout.object_path sha).
  rewrite inflate_loop_spec by lia.
  unfold Z_.inflate_begin. subst result.
  destruct (inflate_stream _) as [out fin]. reflexivity.
Qed.

Lemma tinygit_read_object_short (sha : string) (w : world) :
  (String.length sha < 2)%nat ->
  Tinygit.read_object sha w = Throw out_of_range.
Proof.
  intros Hlen. unfold Tinygit.read_object.
  unfold mbind at 1. unfold lift at 1.
  rewrite (substr_prefix sha 2 : substr sha 0 2 = _). cbn [bind].
  unfold mbind at 1. unfold lift at 1.
  rewrite substr_from_throws by (unfold size; lia). reflexivity.
Qed.

(** *** The programs of part_000 *)

(** The doubling loop ends with the whole output as soon as the buffer
    is large enough, which happens before the size can wrap around. *)
Lemma tinygit2_uncompress_loop_spec (src out : string) (fuel : nat) :
  inflate_stream src = (out, StreamEnd) -> size out <= 2 ^ 62 ->
  forall s : Z, 0 < s < 2 ^ 64 -> size out <= s * 2 ^ Z.of_nat fuel ->
  Tinygit2.uncompress_loop fuel s src = Some (Z_.Z_OK, out, size out).
Proof.
  intros Hinf Hout. induction fuel as [|fuel IH]; intros s Hs Hfuel;
    cbn [Tinygit2.uncompress_loop]; unfold Z_.uncompress; rewrite Hinf;
    (destruct (Z.eqb_spec s 0) as [H0 | _]; [lia|]);
    destruct (Z.ltb_spec s (size out)) as [Hlt | Hge]; try reflexivity.
  - change (2 ^ Z.of_nat 0) with 1 in Hfuel. lia.
  - change (Z_.Z_BUF_ERROR =? Z_.Z_BUF_ERROR) with true. cbv iota.
    assert (H2s : size_t (s * 2) = s * 2).
    { unfold size_t. apply Z.mod_small.
      change (2 ^ 62) with 4611686018427387904 in Hout.
      change (2 ^ 64) with 18446744073709551616. lia. }
    rewrite H2s. apply IH.
    + change (2 ^ 62) with 4611686018427387904 in Hout.
      change (2 ^ 64) with 18446744073709551616. lia.
    + rewrite Nat2Z.inj_succ, Z.pow_succ_r in Hfuel by lia. lia.
Qed.

Lemma combined_uncompress_loop_spec (src out : string) (fuel : nat) :
  inflate_stream src = (out, StreamEnd) -> size out <= 2 ^ 62 ->
  forall s : Z, 0 < s < 2 ^ 64 -> size out <= s * 2 ^ Z.of_nat fuel ->
  Combined.uncompress_loop fuel s src = Some (Z_.Z_OK, out, size out).
Proof.
  intros Hinf Hout. induction fuel as [|fuel IH]; intros s Hs Hfuel;
    cbn [Combined.uncompress_loop]; unfold Z_.uncompress; rewrite Hinf;
    (destruct (Z.eqb_spec s 0) as [H0 | _]; [lia|]);
    destruct (Z.ltb_spec s (size out)) as [Hlt | Hge]; try reflexivity.
  - change (2 ^ Z.of_nat 0) with 1 in Hfuel. lia.
  - change (Z_.Z_BUF_ERROR =? Z_.Z_BUF_ERROR) with true. cbv iota.
    assert (H2s : size_t (s * 2) = s * 2).
    { unfold size_t. apply Z.mod_small.
      change (2 ^ 62) with 4611686018427387904 in Hout.
      change (2 ^ 64) with 18446744073709551616. lia. }
    rewrite H2s. apply IH.
    + change (2 ^ 62) with 4611686018427387904 in Hout.
      change (2 ^ 64) with 18446744073709551616. lia.
    + rewrite Nat2Z.inj_succ, Z.pow_succ_r in Hfuel by lia. lia.
Qed.

(** *** The loop exits

    The loop of read_object is run for [loop_fuel] = 65 turns.  The sizes
    it tries are s, 2s, 4s, ... modulo 2^64; the 64th doubling gives 0, and
    uncompress with no room at all does not answer Z_BUF_ERROR, so the loop
    has exited by then: the run never ends in [None]. *)

Lemma doubled_shift (k : nat) (s : Z) :
  Loop.doubled k (size_t (s * 2)) = Loop.doubled (S k) s.
Proof. induction k as [|k IH]; [reflexivity|]. cbn [Loop.doubled]. now rewrite IH. Qed.

Lemma doubled_spec (k : nat) (s : Z) :
  Loop.doubled (S k) s = (s * 2 ^ Z.of_nat (S k)) mod 2 ^ 64.
Proof.
  induction k as [|k IH].
  - cbn [Loop.doubled]. unfold size_t. now rewrite Z.pow_1_r.
  - change (Loop.doubled (S (S k)) s) with (size_t (Loop.doubled (S k) s * 2)).
    rewrite IH. unfold size_t. rewrite Z.mul_mod_idemp_l by discriminate.
    f_equal. rewrite (Nat2Z.inj_succ (S k)), Z.pow_succ_r by lia. lia.
Qed.

Lemma doubled_zero (k : nat) (s : Z) : (64 <= k)%nat -> Loop.doubled k s = 0.
Proof.
  intros Hk. destruct k as [|k]; [lia|]. rewrite doubled_spec.
  replace (Z.of_nat (S k)) with (64 + (Z.of_nat (S k) - 64)) by lia.
  rewrite Z.pow_add_r by lia. rewrite Z.mul_assoc, (Z.mul_comm _ (2 ^ 64)).
  rewrite <- Z.mul_assoc. rewrite Z.mul_comm. apply Z.mod_mul. discriminate.
Qed.

(** Z_BUF_ERROR leaves destLen as it was. *)
Lemma uncompress_buf_error (s : Z) (src dest : string) (s' : Z) :
  Z_.uncompress s src = (Z_.Z_BUF_ERROR, dest, s') -> s' = s /\ s <> 0.
Proof.
  unfold Z_.uncompress. destruct (inflate_stream src) as [out fin].
  intros Hu.
  assert (E1 := f_equal (fun x => fst (fst x)) Hu).
  assert (E2 := f_equal snd Hu). clear Hu. revert E1 E2.
  destruct (Z.eqb_spec s 0) as [H0 | H0].
  - destruct fin; [destruct (size out <=? 1)|..]; cbn; discriminate.
  - destruct (s <? size out); [cbn; intros _ <-; now split|].
    destruct fin; [| | |destruct (size out =? s)]; cbn;
      first [discriminate | intros _ <-; now split].
Qed.

Lemma uncompress_no_room (src : string) :
  fst (fst (Z_.uncompress 0 src)) <> Z_.Z_BUF_ERROR.
Proof.
  destruct (Z_.uncompress 0 src) as [[r dest] s'] eqn:Hu. cbn [fst]. intros ->.
  now apply uncompress_buf_error in Hu as [_ H].
Qed.

Lemma tinygit2_loop_running (src : string) (fuel : nat) :
  forall s : Z,
  Tinygit2.uncompress_loop fuel s src = None <->
  (forall k, (k <= fuel)%nat ->
     fst (fst (Z_.uncompress (Loop.doubled k s) src)) = Z_.Z_BUF_ERROR).
Proof.
  induction fuel as [|fuel IH]; intros s; cbn [Tinygit2.uncompress_loop];
    destruct (Z_.uncompress s src) as [[r dest] s'] eqn:Hu;
    assert (Hs' : r = Z_.Z_BUF_ERROR -> s' = s)
      by (intros ->; now apply uncompress_buf_error in Hu as [-> _]);
    destruct (Z.eqb_spec r Z_.Z_BUF_ERROR) as [Hr | Hr].
  - split; [|reflexivity]. intros _ k Hk.
    replace k with 0%nat by lia. cbn [Loop.doubled]. now rewrite Hu.
  - split; [discriminate|]. intros H. specialize (H 0%nat (Nat.le_refl _)).
    cbn [Loop.doubled] in H. rewrite Hu in H. contradiction.
  - rewrite (Hs' Hr), IH. split.
    + intros H [|k] Hk; [cbn [Loop.doubled]; now rewrite Hu|].
      rewrite <- doubled_shift. apply H. lia.
    + intros H k Hk. rewrite doubled_shift. apply H. lia.
  - split; [discriminate|]. intros H. specialize (H 0%nat (Nat.le_0_l _)).
    cbn [Loop.doubled] in H. rewrite Hu in H. contradiction.
Qed.

(** The loop has exited after at most 64 doublings, whatever the file
    holds and whatever the first guess. *)
Lemma tinygit2_loop_exits (src : string) (s : Z) :
  Tinygit2.uncompress_loop Tinygit2.loop_fuel s src <> None.
Proof.
  intros Hnone. rewrite tinygit2_loop_running in Hnone.
  specialize (Hnone 64%nat ltac:(unfold Tinygit2.loop_fuel; lia)).
  rewrite doubled_zero in Hnone by lia.
  now apply uncompress_no_room in Hnone.
Qed.

Lemma combined_loop_same (src : string) (fuel : nat) :
  forall s : Z,
  Combined.uncompress_loop fuel s src = Tinygit2.uncompress_loop fuel s src.
Proof.
  induction fuel as [|fuel IH]; intros s;
    cbn [Combined.uncompress_loop Tinygit2.uncompress_loop];
    destruct (Z_.uncompress s src) as [[r dest] s']; [reflexivity|].
  now rewrite IH.
Qed.

Lemma combined_loop_exits (src : string) (s : Z) :
  Combined.uncompress_loop Combined.loop_fuel s src <> None.
Proof. rewrite combined_loop_same. apply tinygit2_loop_exits. Qed.

(** Hence read_object always comes to an end: with a string, or with the
    exception of substr. *)
Lemma tinygit2_read_object_exits (sha : string) (w : world) :
  Tinygit2.read_object sha w <> Diverge.
Proof.
  unfold Tinygit2.read_object, mbind, lift, Env.ifstream_open, ret.
  rewrite (substr_prefix sha 2 : substr sha 0 2 = _).
  unfold substr_from. destruct (size sha <? 2); cbn [bind]; [discriminate|].
  destruct (files w !! _) as [c|]; [|discriminate].
  destruct (Tinygit2.uncompress_loop _ _ _) as [[[r dest] s']|] eqn:Hloop;
    [|now apply tinygit2_loop_exits in Hloop].
  destruct (negb _); [discriminate|].
  destruct (_ =? npos); [discriminate|].
  destruct (_ <? _); cbn [bind]; discriminate.
Qed.

Lemma combined_read_object_exits (sha : string) (w : world) :
  Combined.read_object sha w <> Diverge.
Proof.
  unfold Combined.read_object, mbind, lift, Env.ifstream_open, Env.exists_,
    Env.put_cerr, ret.
  rewrite (substr_prefix sha 2 : substr sha 0 2 = _).
  unfold substr_from. destruct (size sha <? 2); cbn [bind]; [discriminate|].
  destruct (negb _); [discriminate|].
  destruct (Combined.uncompress_loop _ _ _) as [[[r dest] s']|] eqn:Hloop;
    [|now apply combined_loop_exits in Hloop].
  destruct (negb _); [discriminate|].
  destruct (_ =? npos); [discriminate|].
  destruct (_ <? _); cbn [bind]; discriminate.
Qed.

Lemma take_size (s : string) : take (Z.to_nat (size s)) s = s.
Proof. apply take_all. unfold size. lia. Qed.

Lemma tinygit2_sha1_format (data : string) :
  Layout.is_object_id (Tinygit2.sha1 data).
Proof. rewrite <- Sha1Facts.sha1_spec. apply Sha1Facts.sha1_format. Qed.

Lemma tinygit2_read_object_short (sha : string) (w : world) :
  (String.length sha < 2)%nat ->
  Tinygit2.read_object sha w = Throw out_of_range.
Proof.
  intros Hlen. unfold Tinygit2.read_object.
  unfold mbind at 1. unfold lift at 1.
  rewrite (substr_prefix sha 2 : substr sha 0 2 = _). cbn [bind].
  unfold mbind at 1. unfold lift at 1.
  rewrite substr_from_throws by (unfold size; lia). reflexivity.
Qed.


Lemma tinygit2_read_object_present (sha c out : string) (w : world) :
  (2 <= String.length sha)%nat ->
  files w !! Layout.object_path sha = Some c ->
  inflate_stream c = (out, StreamEnd) -> size out <= 2 ^ 62 ->
  Tinygit2.read_object sha w
  = if find out NUL =? npos then Ret ("", w)
    else lift (substr_from out (size_t (find out NUL + 1))) w.
Proof.
  intros Hlen Hfile Hinf Hout. unfold Tinygit2.read_object.
  unfold mbind at 1. unfold lift at 1.
  rewrite (substr_prefix sha 2 : substr sha 0 2 = _). cbn [bind].
  unfold mbind at 1. unfold lift at 1.
  rewrite (substr_rest sha 2 Hlen : substr_from sha 2 = _). cbn [bind].
  unfold mbind at 1. unfold Env.ifstream_open.
  fold (Layout.shard_dir sha). fold (Layout.shard_file sha).
  fold (Layout.object_path sha). rewrite Hfile.
  rewrite (tinygit2_uncompress_loop_spec c out) by
    (try assumption; try (split; reflexivity);
     change (2 ^ 62) with 4611686018427387904 in Hout;
     unfold Tinygit2.loop_fuel;
     change (1024 * 1024 * 2 ^ Z.of_nat 65) with 38685626227668133590597632;
     lia).
  change (negb (Z_.Z_OK =? Z_.Z_OK)) with false. cbv iota.
  rewrite take_size. destruct (find out NUL =? npos); reflexivity.
Qed.

End WithZlib.

Section WithLaws.
Context {zl : Zlib} {laws : ZlibLaws zl}.

Lemma deflate_nonempty (x : string) : deflate_stream x <> "".
Proof.
  intros Heq. pose proof (inflate_deflate x) as Hx.
  rewrite Heq, inflate_empty in Hx. discriminate.
Qed.

(** compress into a buffer of compressBound bytes succeeds. *)
Lemma compress_bound_ok (store : string) :
  Z_.compress (compressBound (size store)) store
  = (Z_.Z_OK, deflate_stream store, size (deflate_stream store)).
Proof.
  unfold Z_.compress. pose proof (deflate_bound store).
  destruct (Z.leb_spec (size (deflate_stream store)) (compressBound (size store)));
    [reflexivity | lia].
Qed.

(** write_object of part_000 hashes and stores the canonical
    encoding. *)
Lemma tinygit2_write_object_spec (data type : string) (w : world) :
  let store := Layout.canonical_encoding type data in
  let sha := Tinygit2.sha1 store in
  Tinygit2.write_object data type w
  = Ret (sha, Layout.with_file (Layout.object_dir sha) (Layout.object_path sha)
                (deflate_stream store) w).
Proof.
  intros store sha. unfold Tinygit2.write_object.
  fold (Layout.canonical_encoding type data). fold store. fold sha.
  rewrite compress_bound_ok.
  destruct (tinygit2_sha1_format store) as [Hlen Hhex]. fold sha in Hlen, Hhex.
  destruct (shard_file_ok sha (conj Hlen Hhex)) as (Hns & Hne & _ & _).
  unfold mbind at 1. unfold lift at 1.
  rewrite (substr_prefix sha 2 : substr sha 0 2 = _). cbn [bind].
  unfold mbind at 1. unfold lift at 1.
  rewrite (substr_rest sha 2 ltac:(rewrite Hlen; lia) : substr_from sha 2 = _).
  cbn [bind]. rewrite take_size.
  fold (Layout.shard_dir sha). fold (Layout.shard_file sha).
  fold (Layout.object_path sha). rewrite <- object_path_dir.
  rewrite EnvFacts.parent_of_file by exact Hns.
  change (mbind ?m (fun _ => mbind ?n ?k) w)
    with (mbind (mbind m (fun _ => n)) k w).
  unfold mbind at 1.
  rewrite EnvFacts.create_then_write by assumption. reflexivity.
Qed.



Lemma combined_read_object_present (sha c out : string) (w : world) :
  (2 <= String.length sha)%nat ->
  files w !! Layout.object_path sha = Some c ->
  inflate_stream c = (out, StreamEnd) -> size out <= 2 ^ 62 ->
  size c * 5 < 2 ^ 64 ->
  Combined.read_object sha w
  = if find out NUL =? npos then Ret ("", w)
    else lift (substr_from out (size_t (find out NUL + 1))) w.
Proof.
  intros Hlen Hfile Hinf Hout Hc. unfold Combined.read_object.
  unfold mbind at 1. unfold lift at 1.
  rewrite (substr_prefix sha 2 : substr sha 0 2 = _). cbn [bind].
  unfold mbind at 1. unfold lift at 1.
  rewrite (substr_rest sha 2 Hlen : substr_from sha 2 = _). cbn [bind].
  unfold mbind at 1. unfold Env.exists_.
  fold (Layout.shard_dir sha). fold (Layout.shard_file sha).
  fold (Layout.object_path sha). rewrite Hfile.
  rewrite bool_decide_eq_true_2 by (now eexists).
  cbn [orb negb]. unfold mbind at 1. unfold Env.ifstream_open.
  rewrite Hfile. change (default "" (Some c)) with c.
  assert (Hc0 : 0 < size c).
  { destruct c as [|a c]; [|unfold size; simpl; lia].
    rewrite inflate_empty in Hinf. discriminate. }
  change (2 ^ 64) with 18446744073709551616 in Hc.
  assert (Hs : size_t (size c * 5) = size c * 5).
  { unfold size_t. change (2 ^ 64) with 18446744073709551616.
    apply Z.mod_small. lia. }
  rewrite Hs. rewrite (combined_uncompress_loop_spec c out).
  - change (negb (Z_.Z_OK =? Z_.Z_OK)) with false. cbv iota.
    rewrite take_size. destruct (find out NUL =? npos); reflexivity.
  - exact Hinf.
  - exact Hout.
  - change (2 ^ 64) with 18446744073709551616. lia.
  - unfold Combined.loop_fuel.
    change (2 ^ 62) with 4611686018427387904 in Hout.
    change (2 ^ Z.of_nat 65) with 36893488147419103232. lia.
Qed.

(** *** Reading back what was written *)

Lemma canonical_header (kind payload : string) :
  all_chars (is_not NUL) kind = true ->
  all_chars (is_not NUL) (kind +:+ " " +:+ to_string (size payload)) = true.
Proof.
  intros Hk. rewrite !all_chars_app, Hk. cbn [all_chars andb].
  apply (all_chars_weaken is_digit).
  - apply DigitFacts.is_digit_not_nul.
  - apply DigitFacts.to_string_digits, size_nonneg.
Qed.

Lemma canonical_strip (kind payload : string) :
  all_chars (is_not NUL) kind = true ->
  size (Layout.canonical_encoding kind payload) <= 2 ^ 62 ->
  let store := Layout.canonical_encoding kind payload in
  (find store NUL =? npos) = false /\
  substr_from store (size_t (find store NUL + 1)) = Ret payload.
Proof.
  intros Hk Hsize store.
  set (header := kind +:+ " " +:+ to_string (size payload)).
  assert (Hstore : store = header +:+ String NUL payload).
  { subst store header. unfold Layout.canonical_encoding, nul.
    now rewrite !app_assoc. }
  assert (Hfind : find store NUL = size header).
  { rewrite Hstore. apply find_first, canonical_header, Hk. }
  assert (Hh : 0 <= size header < 2 ^ 62).
  { split; [apply size_nonneg|]. subst store.
    rewrite Hstore, size_app in Hsize. unfold size in *. simpl in Hsize. lia. }
  change (2 ^ 62) with 4611686018427387904 in Hh.
  rewrite Hfind. split.
  - apply Z.eqb_neq. unfold npos. change (2 ^ 64) with 18446744073709551616. lia.
  - unfold size_t. change (2 ^ 64) with 18446744073709551616.
    rewrite Z.mod_small by lia.
    rewrite substr_from_ok
      by (rewrite Hstore, size_app; unfold size; simpl String.length; lia).
    f_equal. rewrite Hstore. unfold size.
    replace (Z.to_nat (Z.of_nat (String.length header) + 1))
      with (S (String.length header)) by lia.
    change (String NUL payload) with ((String NUL "") +:+ payload).
    rewrite <- app_assoc.
    replace (S (String.length header))
      with (String.length (header +:+ String NUL ""))
      by (rewrite length_app; simpl; lia).
    apply drop_app.
Qed.



End WithLaws.

End StoreFacts.

(** ** The commands *)

Module MainFacts.
Import Str StrFacts.

Lemma extract_absent : Env.extract None = (false, "").
Proof. reflexivity. Qed.

Lemma extract_empty : Env.extract (Some "") = (false, "").
Proof. reflexivity. Qed.

Lemma hex_not_space (c : ascii) :
  is_lower_hex c = true -> Ascii.is_space c = false.
Proof.
  destruct c as [[] [] [] [] [] [] [] []]; intros H; try reflexivity;
  discriminate H.
Qed.

Lemma skip_ws_word (x t : string) :
  x <> "" -> all_chars is_lower_hex x = true -> Env.skip_ws (x +:+ t) = x +:+ t.
Proof.
  destruct x as [|c x]; [congruence|]. intros _ [Hc _]%andb_true_iff.
  cbn. now rewrite (hex_not_space c Hc).
Qed.

Lemma take_word_line (x t : string) :
  all_chars is_lower_hex x = true -> Env.take_word (x +:+ String LF t) = x.
Proof.
  induction x as [|c x IH]; [reflexivity|].
  intros [Hc Hx]%andb_true_iff. cbn.
  rewrite (hex_not_space c Hc). now rewrite IH.
Qed.

(** What the commit command writes to the branch file reads back as the
  identifier. *)
Lemma extract_written (id : string) :
  Layout.is_object_id id -> Env.extract (Some (id +:+ nl)) = (true, id).
Proof.
  intros [Hlen Hhex]. unfold Env.extract, nl.
  assert (Hne : id <> "") by (intros ->; discriminate).
  rewrite skip_ws_word, take_word_line by assumption.
  destruct (String.eqb_spec id ""); [contradiction | reflexivity].
Qed.

Section Log.
Context {zl : Zlib}.

(** log of tinygit.cpp and of the first program of part_000 passes
    whatever the extraction left in sha to read_object. *)
Lemma tinygit_log_short (w : world) (prog sha : string) :
  snd (Env.extract (files w !! Layout.ref_master)) = sha ->
  (String.length sha < 2)%nat ->
  Tinygit.main [prog; "log"] w = Throw out_of_range.
Proof.
  intros Hsha Hlen.
  change (Tinygit.main [prog; "log"] w)
  with ((payload <- Tinygit.read_object
                    (snd (Env.extract (files w !! Layout.ref_master))) ;;
       Env.put_cout (payload +:+ Str.nl) ;; ret 0) w).
  unfold mbind at 1. rewrite Hsha.
  now rewrite StoreFacts.tinygit_read_object_short.
Qed.

Lemma tinygit2_log_short (w : world) (prog sha : string) :
  snd (Env.extract (files w !! Layout.ref_master)) = sha ->
  (String.length sha < 2)%nat ->
  Tinygit2.main [prog; "log"] w = Throw out_of_range.
Proof.
  intros Hsha Hlen.
  change (Tinygit2.main [prog; "log"] w)
  with ((payload <- Tinygit2.read_object
                    (snd (Env.extract (files w !! Layout.ref_master))) ;;
       Env.put_cout (payload +:+ Str.nl) ;; ret 0) w).
  unfold mbind at 1. rewrite Hsha.
  now rewrite StoreFacts.tinygit2_read_object_short.
Qed.

(** log of the combined program tests the extraction first. *)
Lemma combined_log_no_commit (w : world) (prog : string) :
  fst (Env.extract (files w !! Layout.ref_master)) = false ->
  Combined.main [prog; "log"] w
  = Ret (0, World (files w) (dirs w) (clock w) (ticks w) (cout w)
             (cerr w +:+ "fatal: no commits yet" +:+ Str.nl)).
Proof.
  intros Hok.
  change (Combined.main [prog; "log"] w)
  with ((let '(ok, sha) := Env.extract (files w !! Layout.ref_master) in
       if ok
       then commit_data <- Combined.read_object sha ;;
            Env.put_cout ("commit " +:+ sha +:+ Str.nl +:+ commit_data +:+ Str.nl) ;;
            ret 0
       else Env.put_cerr ("fatal: no commits yet" +:+ Str.nl) ;; ret 0) w).
  destruct (Env.extract (files w !! Layout.ref_master)) as [ok sha].
  simpl in Hok. subst ok. reflexivity.
Qed.

End Log.

End MainFacts.

(** ** The sample codec obeys the laws *)

Lemma stored_laws : ZlibLaws Stored.zlib.
Proof.
  split.
  - intros x. reflexivity.
  - reflexivity.
  - intros x. cbn [deflate_stream compressBound Stored.zlib].
    rewrite StrFacts.size_app. change (Str.size Stored.header) with 2.
    pose proof (StrFacts.size_nonneg x) as Hx.
    pose proof (proj2 (Z.shiftr_nonneg (Str.size x) 12) Hx).
    pose proof (proj2 (Z.shiftr_nonneg (Str.size x) 14) Hx).
    pose proof (proj2 (Z.shiftr_nonneg (Str.size x) 25) Hx).
    lia.
Qed.

(** ** The compressing codec obeys the laws *)

Module RleFacts.

Lemma fill_succ (n : nat) (c : ascii) (x : string) :
  Str.fill (S n) c +:+ x = String c (Str.fill n c +:+ x).
Proof. reflexivity. Qed.

Lemma decode_encode (s : string) : Rle.decode (Rle.encode s) = Some s.
Proof.
  induction s as [|c s IH]; [reflexivity|].
  cbn [Rle.encode].
  destruct (Rle.encode s) as [|c' [|n r]] eqn:He.
  - cbn in IH. injection IH as <-. reflexivity.
  - discriminate IH.
  - cbn [Rle.decode] in IH.
    destruct (Rle.decode r) as [out|] eqn:Hr; [|discriminate IH].
    injection IH as <-.
    destruct (Ascii.eqb_spec c c') as [<- | Hne]; cbn [andb].
    + destruct (Nat.ltb_spec (nat_of_ascii n) 255) as [Hn | Hn].
      * cbn [Rle.decode]. rewrite Hr.
        rewrite nat_ascii_embedding by lia. reflexivity.
      * cbn [Rle.decode]. rewrite Hr. reflexivity.
    + cbn [Rle.decode]. rewrite Hr. reflexivity.
Qed.

Lemma length_encode (s : string) :
  (String.length (Rle.encode s) <= 2 * String.length s)%nat.
Proof.
  induction s as [|c s IH]; [cbn; lia|].
  cbn [Rle.encode].
  destruct (Rle.encode s) as [|c' [|n r]].
  - cbn. lia.
  - cbn in *. lia.
  - destruct (_ && _); cbn in *; lia.
Qed.

End RleFacts.

Lemma rle_laws : ZlibLaws Rle.zlib.
Proof.
  split.
  - intros x. cbn. now rewrite RleFacts.decode_encode.
  - reflexivity.
  - intros x. cbn [deflate_stream compressBound Rle.zlib].
    rewrite StrFacts.size_app. unfold Str.size.
    pose proof (RleFacts.length_encode x). cbn. lia.
Qed.

(** ** Worlds in which an object can be stored *)

Module WorldFacts.

Lemma ancestors_from_base (b : string) :
  forall pre : string,
  Str.all_chars (Str.is_not Env.slash) b = true ->
  Env.ancestors_from pre b = [pre +:+ b].
Proof.
  induction b as [|c b IH]; intros pre; cbn [Env.ancestors_from Str.all_chars].
  - intros _. now rewrite StrFacts.app_nil_r.
  - intros [Hc Hb]%andb_true_iff. unfold Str.is_not in Hc.
    apply negb_true_iff in Hc. rewrite Hc. rewrite IH by exact Hb.
    now rewrite StrFacts.app_assoc.
Qed.

Lemma ancestors_object_dir (id : string) :
  Layout.is_object_id id ->
  Env.ancestors (Layout.object_dir id)
  = [".tinygit"; ".tinygit/objects"; Layout.object_dir id].
Proof.
  intros [Hlen Hhex]. unfold Env.ancestors, Layout.object_dir.
  cbn [String.append Env.ancestors_from Ascii.eqb Bool.eqb Env.slash].
  rewrite ancestors_from_base; [reflexivity|].
  apply EnvFacts.hex_not_slash. now apply StrFacts.all_chars_take.
Qed.

Lemma length_object_path (id : string) :
  Layout.is_object_id id -> String.length (Layout.object_path id) = 58%nat.
Proof.
  intros Hid. destruct (StoreFacts.shard_file_ok id Hid) as (_ & _ & H38 & H2).
  unfold Layout.object_path. rewrite !StrFacts.length_app, H38, H2. reflexivity.
Qed.

Lemma length_object_dir (id : string) :
  Layout.is_object_id id -> String.length (Layout.object_dir id) = 19%nat.
Proof.
  intros Hid. destruct (StoreFacts.shard_file_ok id Hid) as (_ & _ & _ & H2).
  unfold Layout.object_dir. rewrite !StrFacts.length_app, H2. reflexivity.
Qed.

(** [Layout.storable] spelled out. *)
Lemma storable_spec (id : string) (w : world) :
  Layout.is_object_id id ->
  (Layout.storable id w = true <->
   files w !! ".tinygit" = None /\
   files w !! ".tinygit/objects" = None /\
   files w !! Layout.object_dir id = None /\
   Layout.object_path id ∉ dirs w).
Proof.
  intros Hid. unfold Layout.storable. rewrite ancestors_object_dir by exact Hid.
  cbn [forallb]. unfold Env.is_regular_file, Env.is_directory.
  rewrite !andb_true_iff, !negb_true_iff, !bool_decide_eq_false.
  rewrite <- !eq_None_not_Some. tauto.
Qed.

(** After the object has been stored the world is still one in which it can
    be stored: a second write_object meets the same conditions. *)
Lemma storable_with_file (id content : string) (w : world) :
  Layout.is_object_id id -> Layout.storable id w = true ->
  Layout.storable id
    (Layout.with_file (Layout.object_dir id) (Layout.object_path id) content w)
  = true.
Proof.
  intros Hid. rewrite !storable_spec by exact Hid.
  intros (H1 & H2 & H3 & H4).
  pose proof (length_object_path id Hid) as Hp.
  pose proof (length_object_dir id Hid) as Hd.
  assert (Hne : forall a, String.length a <> 58%nat -> Layout.object_path id <> a)
    by (intros a Ha Heq; now rewrite <- Heq in Ha).
  cbn [files dirs Layout.with_file].
  rewrite !lookup_insert_ne by (apply Hne; first [rewrite Hd; lia | cbn; lia]).
  repeat split; try assumption.
  rewrite ancestors_object_dir by exact Hid.
  rewrite elem_of_union, elem_of_list_to_set, !elem_of_cons, elem_of_nil.
  intros [[H | [H | [H | []]]] | H]; try contradiction;
    apply (f_equal String.length) in H; rewrite Hp in H;
    first [rewrite Hd in H; lia | cbn in H; lia].
Qed.

Lemma not_directory (p : string) (w : world) :
  Env.is_directory p w = false <-> p ∉ dirs w.
Proof. unfold Env.is_directory. apply bool_decide_eq_false. Qed.

End WorldFacts.

(** ** Buffers that are too small *)

Module GrowthFacts.

(** In the world after init every object can be stored. *)
Lemma storable_initialised (id : string) :
  Layout.is_object_id id -> Layout.storable id Sample.initialised = true.
Proof.
  intros Hid. apply WorldFacts.storable_spec; [exact Hid|].
  pose proof (WorldFacts.length_object_path id Hid) as Hp.
  pose proof (WorldFacts.length_object_dir id Hid) as Hd.
  cbn [files dirs Sample.initialised].
  split; [reflexivity|]. split; [reflexivity|]. split.
  - apply lookup_singleton_ne. intros Heq.
    apply (f_equal String.length) in Heq. rewrite Hd in Heq. discriminate Heq.
  - rewrite elem_of_list_to_set, !elem_of_cons, elem_of_nil.
    intros [H | [H | [H | [H | []]]]];
      apply (f_equal String.length) in H; rewrite Hp in H; discriminate H.
Qed.

Lemma size_fill (n : Z) (c : ascii) :
  0 <= n -> Str.size (Str.fill (Z.to_nat n) c) = n.
Proof. intros Hn. unfold Str.size. rewrite StrFacts.length_fill. lia. Qed.

Section WithLaws.
Context {zl : Zlib} {laws : ZlibLaws zl}.

(** A guess smaller than the encoding makes uncompress ask for more room. *)
Lemma uncompress_too_small (store : string) (guess : Z) :
  0 < guess < Str.size store ->
  Z_.uncompress guess (deflate_stream store)
  = (Z_.Z_BUF_ERROR, Str.take (Z.to_nat guess) store, guess).
Proof.
  intros Hg. unfold Z_.uncompress. rewrite inflate_deflate.
  destruct (Z.eqb_spec guess 0); [lia|].
  destruct (Z.ltb_spec guess (Str.size store)); [reflexivity | lia].
Qed.

Lemma deflate_size_pos (store : string) : 0 < Str.size (deflate_stream store).
Proof.
  pose proof (StoreFacts.deflate_nonempty store) as Hne.
  destruct (deflate_stream store); [congruence | unfold Str.size; simpl; lia].
Qed.

End WithLaws.

End GrowthFacts.

Lemma readable_after_store (id content : string) (w : world) :
  Layout.is_object_id id -> Layout.storable id w = true ->
  Env.is_directory (Layout.object_path id)
    (Layout.with_file (Layout.object_dir id) (Layout.object_path id) content w)
  = false.
Proof.
  intros Hid Hw. apply WorldFacts.not_directory.
  apply (WorldFacts.storable_with_file id content w Hid) in Hw.
  now apply (WorldFacts.storable_spec _ _ Hid) in Hw.
Qed.

Lemma combined_sha1_format (data : string) :
  Layout.is_object_id (Combined.sha1 data).
Proof. exact (StoreFacts.tinygit2_sha1_format data). Qed.

Lemma size_big : Str.size Scenario.big = 2097152.
Proof. unfold Scenario.big. now apply GrowthFacts.size_fill. Qed.

Lemma size_big_store :
  Str.size (Layout.canonical_encoding "blob" Scenario.big) = 2097165.
Proof.
  unfold Layout.canonical_encoding. rewrite !StrFacts.size_app, !size_big.
  reflexivity.
Qed.

(** * The claims *)

(** ** Hashing *)

Example sha1_of_empty :
  Tinygit.sha1 "" = "da39a3ee5e6b4b0d3255bfef95601890afd80709".
Proof. vm_compute. reflexivity. Qed.

Example sha1_of_abc :
  Tinygit.sha1 "abc" = "a9993e364706816aba3e25717850c26c9cd0d89d".
Proof. vm_compute. reflexivity. Qed.

Example sha1_of_hello_blob :
  Tinygit2.sha1 (Layout.canonical_encoding "blob" Sample.hello)
  = "ce013625030ba8dba906f756967f9e9ca394464a".
Proof. vm_compute. reflexivity. Qed.

(** C7: the hand-written SHA-1 of src/myrepo/tinygit.cpp and the sha1 of
    src/unnamed/part_000, which renders the digest of OpenSSL's SHA1, return
    the same string for every byte sequence, the empty one included, and
    that string is always forty lowercase hexadecimal characters. *)
Theorem sha1_hashers_agree (data : string) :
  Tinygit.sha1 data = Tinygit2.sha1 data /\
  Tinygit.sha1 data = Combined.sha1 data /\
  String.length (Tinygit.sha1 data) = 40%nat /\
  Str.all_chars Str.is_lower_hex (Tinygit.sha1 data) = true.
Proof.
  split; [apply Sha1Facts.sha1_spec|].
  split; [apply Sha1Facts.sha1_spec|].
  apply Sha1Facts.sha1_format.
Qed.

(** ** Sharding *)

Lemma id_of_object_path (id : string) :
  (2 <= String.length id)%nat -> Layout.id_of_path (Layout.object_path id) = id.
Proof.
  intros Hlen. unfold Layout.id_of_path, Layout.object_path.
  change 17%nat with (String.length ".tinygit/objects/").
  rewrite StrFacts.drop_app.
  assert (H2 : String.length (Layout.shard_dir id) = 2%nat).
  { unfold Layout.shard_dir. rewrite StrFacts.length_take. lia. }
  assert (H3 : String.length (Layout.shard_dir id +:+ "/") = 3%nat).
  { rewrite StrFacts.length_app, H2. reflexivity. }
  rewrite <- H2 at 1. rewrite StrFacts.take_app.
  rewrite <- (StrFacts.app_assoc (Layout.shard_dir id) "/" (Layout.shard_file id)).
  rewrite <- H3 at 1. rewrite StrFacts.drop_app.
  apply StrFacts.take_drop.
Qed.

Lemma object_path_injective (id1 id2 : string) :
  (2 <= String.length id1)%nat -> (2 <= String.length id2)%nat ->
  Layout.object_path id1 = Layout.object_path id2 -> id1 = id2.
Proof.
  intros H1 H2 Heq.
  rewrite <- (id_of_object_path id1 H1), <- (id_of_object_path id2 H2).
  now rewrite Heq.
Qed.

(** C8: in a world where the object can be stored, write_object of
    tinygit.cpp stores it at .tinygit/objects/<dir>/<file> where <dir> is
    exactly the first 2 characters of the identifier and <file> the
    remaining 38, so that <dir> followed by <file> is the identifier again;
    the identifier is recovered from the path ([Layout.id_of_path]), which
    makes the map from identifiers to paths one-to-one; and read_object, in
    any world where that path is not a directory, looks the object up at
    the path built by the same rule. *)
Theorem object_store_sharding (zl : Zlib) (data type : string) (w : world) :
  let id :=
    Tinygit.sha1 (type +:+ " " +:+ Str.to_string (Str.size data) +:+ data) in
  Layout.storable id w = true ->
  exists (content : string) (w' : world),
    Tinygit.write_object data type w = Ret (id, w') /\
    files w' =
      <[".tinygit/objects/" +:+ Layout.shard_dir id +:+ "/" +:+ Layout.shard_file id
        := content]> (files w) /\
    Layout.storable id w' = true /\
    Layout.shard_dir id = Str.take 2 id /\
    Layout.shard_file id = Str.drop 2 id /\
    String.length (Layout.shard_dir id) = 2%nat /\
    String.length (Layout.shard_file id) = 38%nat /\
    Layout.shard_dir id +:+ Layout.shard_file id = id /\
    Layout.id_of_path (Layout.object_path id) = id /\
    (forall id1 id2 : string,
       (2 <= String.length id1)%nat -> (2 <= String.length id2)%nat ->
       Layout.object_path id1 = Layout.object_path id2 -> id1 = id2) /\
    (forall w1 : world,
       Env.is_directory (Layout.object_path id) w1 = false ->
       Tinygit.read_object id w1
       = lift (let result :=
                 fst (inflate_stream (default "" (files w1 !! Layout.object_path id))) in
               Str.substr_from result (Str.size_t (Str.find result Str.NUL + 1)))
              w1).
Proof.
  intros id Hw0.
  pose proof (StoreFacts.tinygit_write_object_spec data type w) as Hw.
  cbv zeta in Hw. fold id in Hw.
  destruct (Sha1Facts.sha1_format
              (type +:+ " " +:+ Str.to_string (Str.size data) +:+ data)) as [Hlen Hhex].
  fold id in Hlen, Hhex.
  destruct (StoreFacts.shard_file_ok id (conj Hlen Hhex)) as (_ & _ & H38 & H2).
  eexists _, _. split; [exact Hw|].
  split; [reflexivity|].
  split; [apply WorldFacts.storable_with_file; [split; assumption | exact Hw0]|].
  split; [reflexivity|]. split; [reflexivity|].
  split; [exact H2|]. split; [exact H38|].
  split; [apply StrFacts.take_drop|].
  split; [apply id_of_object_path; lia|].
  split; [exact object_path_injective|].
  intros w1 _. apply StoreFacts.tinygit_read_object_spec. lia.
Qed.

Lemma object_store_sharding_witness :
  let id := "9a0e040b7f816f66b83e28fe7db1e35155541efb" in
  exists (content : string) (w' : world),
    Tinygit.write_object (zl := Stored.zlib) Sample.hello "blob" Sample.initialised
    = Ret (id, w') /\
    files w' =
      <[".tinygit/objects/" +:+ Layout.shard_dir id +:+ "/" +:+ Layout.shard_file id
        := content]> (files Sample.initialised) /\
    Layout.storable id w' = true /\
    Layout.shard_dir id = Str.take 2 id /\
    Layout.shard_file id = Str.drop 2 id /\
    String.length (Layout.shard_dir id) = 2%nat /\
    String.length (Layout.shard_file id) = 38%nat /\
    Layout.shard_dir id +:+ Layout.shard_file id = id /\
    Layout.id_of_path (Layout.object_path id) = id /\
    (forall id1 id2 : string,
       (2 <= String.length id1)%nat -> (2 <= String.length id2)%nat ->
       Layout.object_path id1 = Layout.object_path id2 -> id1 = id2) /\
    (forall w1 : world,
       Env.is_directory (Layout.object_path id) w1 = false ->
       Tinygit.read_object (zl := Stored.zlib) id w1
       = lift (let result :=
                 fst (@inflate_stream Stored.zlib
                        (default "" (files w1 !! Layout.object_path id))) in
               Str.substr_from result (Str.size_t (Str.find result Str.NUL + 1)))
              w1).
Proof.
  assert (Hid : Tinygit.sha1 ("blob" +:+ " " +:+ Str.to_string (Str.size Sample.hello)
                              +:+ Sample.hello)
                = "9a0e040b7f816f66b83e28fe7db1e35155541efb")
    by (vm_compute; reflexivity).
  intros id. subst id. rewrite <- Hid.
  apply (object_store_sharding Stored.zlib Sample.hello "blob" Sample.initialised).
  rewrite Hid. vm_compute. reflexivity.
Defined.

(** ** Idempotence *)

(** C6: write_object is deterministic and idempotent, in tinygit.cpp and in
    part_000.  From any two worlds in which the object can be stored, the
    same payload and kind give the same identifier and the same file
    content at the identifier's path; the world after the call is again one
    in which the object can be stored, and a second call returns the same
    identifier and leaves the store, hence the file's bytes, exactly as the
    first call left it. *)
Theorem write_object_idempotent (zl : Zlib) (laws : ZlibLaws zl)
  (data type : string) (w v : world) :
  let id1 :=
    Tinygit.sha1 (type +:+ " " +:+ Str.to_string (Str.size data) +:+ data) in
  let id2 := Tinygit2.sha1 (Layout.canonical_encoding type data) in
  Layout.storable id1 w = true -> Layout.storable id1 v = true ->
  Layout.storable id2 w = true -> Layout.storable id2 v = true ->
  (exists (content : string) (w1 v1 : world),
     Tinygit.write_object data type w = Ret (id1, w1) /\
     files w1 !! Layout.object_path id1 = Some content /\
     Layout.storable id1 w1 = true /\
     Tinygit.write_object data type w1 = Ret (id1, w1) /\
     Tinygit.write_object data type v = Ret (id1, v1) /\
     files v1 !! Layout.object_path id1 = Some content) /\
  (exists (content : string) (w1 v1 : world),
     Tinygit2.write_object data type w = Ret (id2, w1) /\
     files w1 !! Layout.object_path id2 = Some content /\
     Layout.storable id2 w1 = true /\
     Tinygit2.write_object data type w1 = Ret (id2, w1) /\
     Tinygit2.write_object data type v = Ret (id2, v1) /\
     files v1 !! Layout.object_path id2 = Some content).
Proof.
  intros id1 id2 Hw1 Hv1 Hw2 Hv2. split.
  - eexists _, _, _.
    rewrite !StoreFacts.tinygit_write_object_spec, EnvFacts.with_file_idem.
    fold id1.
    split; [reflexivity|]. split; [apply lookup_insert_eq|].
    split; [apply WorldFacts.storable_with_file;
            [apply Sha1Facts.sha1_format | exact Hw1]|].
    split; [reflexivity|]. split; [reflexivity|]. apply lookup_insert_eq.
  - eexists _, _, _.
    rewrite !StoreFacts.tinygit2_write_object_spec, EnvFacts.with_file_idem.
    fold id2.
    split; [reflexivity|]. split; [apply lookup_insert_eq|].
    split; [apply WorldFacts.storable_with_file;
            [apply StoreFacts.tinygit2_sha1_format | exact Hw2]|].
    split; [reflexivity|]. split; [reflexivity|]. apply lookup_insert_eq.
Qed.

Lemma write_object_idempotent_witness :
  let id1 := "9a0e040b7f816f66b83e28fe7db1e35155541efb" in
  let id2 := "ce013625030ba8dba906f756967f9e9ca394464a" in
  (exists (content : string) (w1 v1 : world),
     Tinygit.write_object (zl := Stored.zlib) Sample.hello "blob" Sample.fresh
       = Ret (id1, w1) /\
     files w1 !! Layout.object_path id1 = Some content /\
     Layout.storable id1 w1 = true /\
     Tinygit.write_object (zl := Stored.zlib) Sample.hello "blob" w1 = Ret (id1, w1) /\
     Tinygit.write_object (zl := Stored.zlib) Sample.hello "blob" Sample.initialised
       = Ret (id1, v1) /\
     files v1 !! Layout.object_path id1 = Some content) /\
  (exists (content : string) (w1 v1 : world),
     Tinygit2.write_object (zl := Stored.zlib) Sample.hello "blob" Sample.fresh
       = Ret (id2, w1) /\
     files w1 !! Layout.object_path id2 = Some content /\
     Layout.storable id2 w1 = true /\
     Tinygit2.write_object (zl := Stored.zlib) Sample.hello "blob" w1 = Ret (id2, w1) /\
     Tinygit2.write_object (zl := Stored.zlib) Sample.hello "blob" Sample.initialised
       = Ret (id2, v1) /\
     files v1 !! Layout.object_path id2 = Some content).
Proof.
  assert (H1 : Tinygit.sha1 ("blob" +:+ " " +:+ Str.to_string (Str.size Sample.hello)
                             +:+ Sample.hello)
               = "9a0e040b7f816f66b83e28fe7db1e35155541efb")
    by (vm_compute; reflexivity).
  assert (H2 : Tinygit2.sha1 (Layout.canonical_encoding "blob" Sample.hello)
               = "ce013625030ba8dba906f756967f9e9ca394464a")
    by (vm_compute; reflexivity).
  intros id1 id2. subst id1 id2. rewrite <- H1, <- H2.
  apply (write_object_idempotent Stored.zlib stored_laws Sample.hello "blob"
           Sample.fresh Sample.initialised);
    first [rewrite H1 | rewrite H2]; vm_compute; reflexivity.
Defined.

(** ** Decompression *)

(** C5: for every stored object (the deflate stream of an encoding of up to
    2^62 bytes, in a world where its path is not a directory) read_object
    of part_000 returns the complete payload.  Its grow-and-retry loop exits
    with Z_OK and the whole encoding, whatever the initial guess (1 MiB in
    the first program, five times the compressed size in the combined one);
    when the encoding is larger than the guess the first call of uncompress
    returns Z_BUF_ERROR, the buffer is doubled, and the result is still the
    full payload, never a truncated one. *)
Theorem read_object_grows_buffer (zl : Zlib) (laws : ZlibLaws zl)
  (sha kind payload : string) (w : world) :
  let store := Layout.canonical_encoding kind payload in
  let compressed := deflate_stream store in
  Layout.is_object_id sha ->
  Str.all_chars (Str.is_not Str.NUL) kind = true ->
  Str.size store <= 2 ^ 62 ->
  Str.size compressed * 5 < 2 ^ 64 ->
  files w !! Layout.object_path sha = Some compressed ->
  Env.is_directory (Layout.object_path sha) w = false ->
  Tinygit2.uncompress_loop Tinygit2.loop_fuel (1024 * 1024) compressed
  = Some (Z_.Z_OK, store, Str.size store) /\
  Combined.uncompress_loop Combined.loop_fuel
    (Str.size_t (Str.size compressed * 5)) compressed
  = Some (Z_.Z_OK, store, Str.size store) /\
  Tinygit2.read_object sha w = Ret (payload, w) /\
  Combined.read_object sha w = Ret (payload, w) /\
  (1024 * 1024 < Str.size store ->
   fst (fst (Z_.uncompress (1024 * 1024) compressed)) = Z_.Z_BUF_ERROR) /\
  (Str.size compressed * 5 < Str.size store ->
   fst (fst (Z_.uncompress (Str.size_t (Str.size compressed * 5)) compressed))
   = Z_.Z_BUF_ERROR).
Proof.
  intros store compressed [Hlen Hhex] Hkind Hsize Hc Hfile Hdir.
  pose proof (GrowthFacts.deflate_size_pos store) as Hc0. fold compressed in Hc0.
  destruct (StoreFacts.canonical_strip kind payload Hkind Hsize) as [Hf Hsub].
  fold store in Hf, Hsub.
  assert (Hs : Str.size_t (Str.size compressed * 5) = Str.size compressed * 5).
  { unfold Str.size_t. change (2 ^ 64) with 18446744073709551616 in *.
    apply Z.mod_small. lia. }
  split; [|split; [|split; [|split; [|split]]]].
  - apply StoreFacts.tinygit2_uncompress_loop_spec.
    + apply inflate_deflate.
    + exact Hsize.
    + split; reflexivity.
    + unfold Tinygit2.loop_fuel.
      change (2 ^ 62) with 4611686018427387904 in Hsize.
      change (1024 * 1024 * 2 ^ Z.of_nat 65) with 38685626227668133590597632. lia.
  - rewrite Hs. apply StoreFacts.combined_uncompress_loop_spec.
    + apply inflate_deflate.
    + exact Hsize.
    + lia.
    + unfold Combined.loop_fuel.
      change (2 ^ 62) with 4611686018427387904 in Hsize.
      change (2 ^ Z.of_nat 65) with 36893488147419103232. lia.
  - rewrite (StoreFacts.tinygit2_read_object_present sha compressed store);
      [| rewrite Hlen; lia | exact Hfile | apply inflate_deflate | exact Hsize].
    rewrite Hf. unfold lift. now rewrite Hsub.
  - rewrite (StoreFacts.combined_read_object_present sha compressed store);
      [| rewrite Hlen; lia | exact Hfile | apply inflate_deflate | exact Hsize
       | exact Hc].
    rewrite Hf. unfold lift. now rewrite Hsub.
  - intros Hbig. unfold compressed.
    rewrite GrowthFacts.uncompress_too_small by lia. reflexivity.
  - intros Hbig. rewrite Hs. unfold compressed at 2.
    rewrite GrowthFacts.uncompress_too_small by lia. reflexivity.
Qed.

Lemma read_object_grows_buffer_witness :
  (Str.size (@deflate_stream Rle.zlib (Layout.canonical_encoding "blob" Scenario.run))
   = 20 /\
   Str.size (Layout.canonical_encoding "blob" Scenario.run) = 109 /\
   fst (fst (Z_.uncompress (zl := Rle.zlib)
               (Str.size_t
                  (Str.size (@deflate_stream Rle.zlib
                               (Layout.canonical_encoding "blob" Scenario.run)) * 5))
               (@deflate_stream Rle.zlib
                  (Layout.canonical_encoding "blob" Scenario.run))))
   = Z_.Z_BUF_ERROR /\
   Combined.read_object (zl := Rle.zlib)
     (Combined.sha1 (Layout.canonical_encoding "blob" Scenario.run))
     (Layout.with_file
        (Layout.object_dir (Combined.sha1 (Layout.canonical_encoding "blob" Scenario.run)))
        (Layout.object_path (Combined.sha1 (Layout.canonical_encoding "blob" Scenario.run)))
        (@deflate_stream Rle.zlib (Layout.canonical_encoding "blob" Scenario.run))
        Sample.initialised)
   = Ret (Scenario.run,
          Layout.with_file
            (Layout.object_dir (Combined.sha1 (Layout.canonical_encoding "blob" Scenario.run)))
            (Layout.object_path (Combined.sha1 (Layout.canonical_encoding "blob" Scenario.run)))
            (@deflate_stream Rle.zlib (Layout.canonical_encoding "blob" Scenario.run))
            Sample.initialised)) /\
  (Str.size (Layout.canonical_encoding "blob" Scenario.big) = 2097165 /\
   fst (fst (Z_.uncompress (zl := Stored.zlib) (1024 * 1024)
               (@deflate_stream Stored.zlib
                  (Layout.canonical_encoding "blob" Scenario.big))))
   = Z_.Z_BUF_ERROR /\
   Tinygit2.read_object (zl := Stored.zlib)
     (Tinygit2.sha1 (Layout.canonical_encoding "blob" Scenario.big))
     (Layout.with_file
        (Layout.object_dir (Tinygit2.sha1 (Layout.canonical_encoding "blob" Scenario.big)))
        (Layout.object_path (Tinygit2.sha1 (Layout.canonical_encoding "blob" Scenario.big)))
        (@deflate_stream Stored.zlib (Layout.canonical_encoding "blob" Scenario.big))
        Sample.initialised)
   = Ret (Scenario.big,
          Layout.with_file
            (Layout.object_dir (Tinygit2.sha1 (Layout.canonical_encoding "blob" Scenario.big)))
            (Layout.object_path (Tinygit2.sha1 (Layout.canonical_encoding "blob" Scenario.big)))
            (@deflate_stream Stored.zlib (Layout.canonical_encoding "blob" Scenario.big))
            Sample.initialised)).
Proof.
  split.
  - destruct (read_object_grows_buffer Rle.zlib rle_laws
                (Combined.sha1 (Layout.canonical_encoding "blob" Scenario.run))
                "blob" Scenario.run
                (Layout.with_file
                   (Layout.object_dir
                      (Combined.sha1 (Layout.canonical_encoding "blob" Scenario.run)))
                   (Layout.object_path
                      (Combined.sha1 (Layout.canonical_encoding "blob" Scenario.run)))
                   (@deflate_stream Rle.zlib
                      (Layout.canonical_encoding "blob" Scenario.run))
                   Sample.initialised))
      as (_ & _ & _ & Hread & _ & Hretry).
    + apply combined_sha1_format.
    + reflexivity.
    + vm_compute. discriminate.
    + vm_compute. reflexivity.
    + apply EnvFacts.lookup_with_file.
    + apply readable_after_store; [apply combined_sha1_format|].
      apply GrowthFacts.storable_initialised, combined_sha1_format.
    + split; [vm_compute; reflexivity|]. split; [vm_compute; reflexivity|].
      split; [apply Hretry; vm_compute; reflexivity | exact Hread].
  - destruct (read_object_grows_buffer Stored.zlib stored_laws
                (Tinygit2.sha1 (Layout.canonical_encoding "blob" Scenario.big))
                "blob" Scenario.big
                (Layout.with_file
                   (Layout.object_dir
                      (Tinygit2.sha1 (Layout.canonical_encoding "blob" Scenario.big)))
                   (Layout.object_path
                      (Tinygit2.sha1 (Layout.canonical_encoding "blob" Scenario.big)))
                   (@deflate_stream Stored.zlib
                      (Layout.canonical_encoding "blob" Scenario.big))
                   Sample.initialised))
      as (_ & _ & Hread & _ & Hretry & _).
    + apply StoreFacts.tinygit2_sha1_format.
    + reflexivity.
    + rewrite size_big_store. discriminate.
    + cbn [deflate_stream Stored.zlib].
      rewrite StrFacts.size_app, size_big_store. reflexivity.
    + apply EnvFacts.lookup_with_file.
    + apply readable_after_store; [apply StoreFacts.tinygit2_sha1_format|].
      apply GrowthFacts.storable_initialised, StoreFacts.tinygit2_sha1_format.
    + split; [apply size_big_store|].
      split; [apply Hretry; rewrite size_big_store; reflexivity | exact Hread].
Defined.

(** ** Round trip *)

(** In tinygit.cpp the header ends with the last digit of the size. *)
Lemma tinygit_header_nul_free (data type : string) :
  Str.all_chars (Str.is_not Str.NUL) type = true ->
  Str.all_chars (Str.is_not Str.NUL)
    (type +:+ " " +:+ Str.to_string (Str.size data)) = true.
Proof. apply StoreFacts.canonical_header. Qed.

(** C1 (src/myrepo/tinygit.cpp): reading back what write_object stored never
    gives the payload.  The stored bytes are kind, space, size and payload
    with no NUL in between, so read_object returns all of them when the
    payload holds no NUL, and otherwise what follows the payload's first
    NUL. *)
Theorem tinygit_round_trip_fails (zl : Zlib) (laws : ZlibLaws zl)
  (data type : string) (w : world) :
  Str.all_chars (Str.is_not Str.NUL) type = true ->
  Str.size (type +:+ " " +:+ Str.to_string (Str.size data) +:+ data) < 2 ^ 64 ->
  exists (r : string) (w' : world),
    (sha <- Tinygit.write_object data type ;; Tinygit.read_object sha) w
    = Ret (r, w') /\
    r <> data /\
    (Str.all_chars (Str.is_not Str.NUL) data = true ->
     r = type +:+ " " +:+ Str.to_string (Str.size data) +:+ data).
Proof.
  intros Htype Hsize.
  set (header := type +:+ " " +:+ Str.to_string (Str.size data)).
  assert (Hstore : type +:+ " " +:+ Str.to_string (Str.size data) +:+ data
                   = header +:+ data)
    by (subst header; now rewrite !StrFacts.app_assoc).
  rewrite Hstore in *. set (store := header +:+ data) in *.
  pose proof (tinygit_header_nul_free data type Htype) as Hheader. fold header in Hheader.
  assert (Hh : (1 <= String.length header)%nat).
  { subst header. rewrite !StrFacts.length_app. simpl. lia. }
  unfold mbind. rewrite StoreFacts.tinygit_write_object_spec.
  rewrite Hstore. fold store.
  set (sha := Tinygit.sha1 store).
  destruct (Sha1Facts.sha1_format store) as [Hlen _]. fold sha in Hlen.
  rewrite StoreFacts.tinygit_read_object_spec by (rewrite Hlen; lia).
  cbv zeta. rewrite !EnvFacts.lookup_with_file.
  change (default "" (Some (deflate_stream store))) with (deflate_stream store).
  rewrite !inflate_deflate. cbn [fst].
  assert (Hfind : Str.find store Str.NUL
                  = Str.find_from data Str.NUL (Str.size header)).
  { unfold Str.find, store. now rewrite StrFacts.find_from_app. }
  change (2 ^ 64) with 18446744073709551616 in Hsize.
  assert (Hlenstore : Str.size store = Str.size header + Str.size data)
    by apply StrFacts.size_app.
  destruct (StrFacts.find_from_range data Str.NUL (Str.size header)) as [Hnone | Hin].
  - (* no NUL: npos + 1 wraps to 0 *)
    rewrite Hfind, Hnone.
    change (Str.size_t (Str.npos + 1)) with 0.
    rewrite StrFacts.substr_from_ok by apply StrFacts.size_nonneg.
    eexists _, _. split; [reflexivity|].
    change (Str.drop (Z.to_nat 0) store) with store. split.
    + intros Heq. apply (f_equal String.length) in Heq.
      unfold store in Heq. rewrite StrFacts.length_app in Heq. lia.
    + reflexivity.
  - (* a NUL inside the payload *)
    rewrite Hfind.
    set (k := Str.find_from data Str.NUL (Str.size header)) in *.
    assert (Hk : Str.size_t (k + 1) = k + 1).
    { unfold Str.size_t. change (2 ^ 64) with 18446744073709551616.
      apply Z.mod_small. pose proof (StrFacts.size_nonneg header). lia. }
    rewrite Hk, StrFacts.substr_from_ok by lia.
    eexists _, _. split; [reflexivity|]. split.
    + intros Heq. apply (f_equal String.length) in Heq.
      rewrite StrFacts.length_drop in Heq. unfold Str.size in *.
      unfold store in Heq. rewrite StrFacts.length_app in Heq. lia.
    + intros Hdata. exfalso.
      assert (Habs : k = Str.npos)
        by exact (StrFacts.find_from_absent data Str.NUL _ Hdata).
      unfold Str.npos in Habs. change (2 ^ 64) with 18446744073709551616 in Habs.
      lia.
Qed.

Lemma tinygit_round_trip_fails_witness :
  exists (r : string) (w' : world),
    (sha <- Tinygit.write_object (zl := Stored.zlib) Sample.hello "blob" ;;
     Tinygit.read_object (zl := Stored.zlib) sha) Sample.initialised
    = Ret (r, w') /\
    r <> Sample.hello /\
    (Str.all_chars (Str.is_not Str.NUL) Sample.hello = true ->
     r = "blob" +:+ " " +:+ Str.to_string (Str.size Sample.hello) +:+ Sample.hello).
Proof.
  apply (tinygit_round_trip_fails Stored.zlib stored_laws Sample.hello "blob"
           Sample.initialised).
  - reflexivity.
  - vm_compute. reflexivity.
Defined.

Example tinygit_reads_hello_with_header :
  Sample.value
    ((sha <- Tinygit.write_object (zl := Stored.zlib) Sample.hello "blob" ;;
      Tinygit.read_object (zl := Stored.zlib) sha) Sample.initialised)
  = Ret ("blob 6hello" +:+ Str.nl).
Proof. vm_compute. reflexivity. Qed.

Example tinygit2_reads_hello :
  Sample.value
    ((sha <- Tinygit2.write_object (zl := Stored.zlib) Sample.hello "blob" ;;
      Tinygit2.read_object (zl := Stored.zlib) sha) Sample.initialised)
  = Ret Sample.hello.
Proof. vm_compute. reflexivity. Qed.

(** ** The canonical encoding *)

(** C2 (src/myrepo/tinygit.cpp): what write_object hashes and stores is
    kind, space, decimal size and payload; the NUL byte of the canonical
    encoding is missing, because operator+ appends the string literal "\0"
    as the empty string.  For "hello\n" as a blob the identifier returned is
    the SHA-1 of "blob 6hello\n", not of "blob 6\0hello\n". *)
Theorem tinygit_write_object_omits_nul (zl : Zlib) (data type : string)
  (w : world) :
  let store := type +:+ " " +:+ Str.to_string (Str.size data) +:+ data in
  exists w' : world,
    Tinygit.write_object data type w = Ret (Tinygit.sha1 store, w') /\
    files w' !! Layout.object_path (Tinygit.sha1 store)
    = Some (deflate_stream store) /\
    store <> Layout.canonical_encoding type data /\
    Tinygit.sha1 ("blob" +:+ " " +:+ Str.to_string (Str.size Sample.hello)
                  +:+ Sample.hello)
    = "9a0e040b7f816f66b83e28fe7db1e35155541efb" /\
    Tinygit.sha1 (Layout.canonical_encoding "blob" Sample.hello)
    = "ce013625030ba8dba906f756967f9e9ca394464a".
Proof.
  intros store. eexists.
  rewrite StoreFacts.tinygit_write_object_spec. fold store.
  split; [reflexivity|]. split; [apply lookup_insert_eq|]. split.
  - intros Heq. apply (f_equal String.length) in Heq.
    unfold store, Layout.canonical_encoding in Heq.
    rewrite !StrFacts.length_app in Heq. simpl in Heq. lia.
  - split; vm_compute; reflexivity.
Qed.

(** ** Short identifiers and the log command *)

(** C10: read_object of tinygit.cpp needs an identifier of at least 2
    characters.  For a shorter one sha.substr(2) throws std::out_of_range,
    so read_object ends with that exception; the log command passes the
    word it extracted from the branch file unchecked, which is the empty
    string when the file is missing or empty, and then ends the same way. *)
Theorem read_object_short_identifier (zl : Zlib) (w : world)
  (sha prog : string) :
  (String.length sha < 2)%nat ->
  Str.substr_from sha 2 = Throw out_of_range /\
  Tinygit.read_object sha w = Throw out_of_range /\
  (snd (Env.extract (files w !! Layout.ref_master)) = sha ->
   Tinygit.main [prog; "log"] w = Throw out_of_range) /\
  snd (Env.extract None) = "" /\
  snd (Env.extract (Some "")) = "".
Proof.
  intros Hlen. split.
  - apply StrFacts.substr_from_throws. unfold Str.size. lia.
  - split; [now apply StoreFacts.tinygit_read_object_short|].
    split; [|split; reflexivity].
    intros Hsha. now apply (MainFacts.tinygit_log_short w prog sha).
Qed.

Lemma read_object_short_identifier_witness :
  Str.substr_from "" 2 = Throw out_of_range /\
  Tinygit.read_object (zl := Stored.zlib) "" Sample.initialised
  = Throw out_of_range /\
  (snd (Env.extract (files Sample.initialised !! Layout.ref_master)) = "" ->
   Tinygit.main (zl := Stored.zlib) ["tinygit"; "log"] Sample.initialised
   = Throw out_of_range) /\
  snd (Env.extract None) = "" /\
  snd (Env.extract (Some "")) = "".
Proof.
  apply (read_object_short_identifier Stored.zlib Sample.initialised "" "tinygit").
  simpl. lia.
Defined.

(** An identifier of 2 characters or more passes the path construction. *)
Lemma read_object_path_defined (sha : string) :
  (2 <= String.length sha)%nat ->
  Str.substr_from sha 2 = Ret (Layout.shard_file sha).
Proof. intros Hlen. now apply (StoreFacts.substr_rest sha 2). Qed.

(** ** Resolving the branch *)

(** C4 (src/myrepo/tinygit.cpp and the first program of part_000): the log
    command before any commit, when the branch file does not exist, ends
    with an uncaught std::out_of_range instead of reporting that there are
    no commits. *)
Theorem tinygit_log_before_commit (zl : Zlib) (w : world) (prog : string) :
  files w !! Layout.ref_master = None ->
  Tinygit.main [prog; "log"] w = Throw out_of_range /\
  Tinygit2.main [prog; "log"] w = Throw out_of_range.
Proof.
  intros Href. split.
  - apply (MainFacts.tinygit_log_short w prog ""); [now rewrite Href | simpl; lia].
  - apply (MainFacts.tinygit2_log_short w prog ""); [now rewrite Href | simpl; lia].
Qed.

Lemma tinygit_log_before_commit_witness :
  Tinygit.main (zl := Stored.zlib) ["tinygit"; "log"] Sample.initialised
  = Throw out_of_range /\
  Tinygit2.main (zl := Stored.zlib) ["tinygit"; "log"] Sample.initialised
  = Throw out_of_range.
Proof.
  apply (tinygit_log_before_commit Stored.zlib Sample.initialised "tinygit").
  reflexivity.
Defined.

(** The combined program does what the claim says: no commit yet is
    reported on standard error and the command returns normally; and in
    every program the identifier written by commit is the one log reads. *)
Lemma combined_log_before_commit (zl : Zlib) (w : world) (prog : string) :
  files w !! Layout.ref_master = None ->
  Combined.main [prog; "log"] w
  = Ret (0, World (files w) (dirs w) (clock w) (ticks w) (cout w)
                 (cerr w +:+ "fatal: no commits yet" +:+ Str.nl)).
Proof.
  intros Href. apply MainFacts.combined_log_no_commit. now rewrite Href.
Qed.

Lemma resolve_after_update (id : string) (w : world) :
  Layout.is_object_id id ->
  ".tinygit/refs/heads" ∈ dirs w ->
  exists w' : world,
    Env.ofstream_write Layout.ref_master (id +:+ Str.nl) w = Ret (tt, w') /\
    Env.extract (files w' !! Layout.ref_master) = (true, id).
Proof.
  intros Hid Hdir. unfold Env.ofstream_write.
  assert (Hc : Env.can_create Layout.ref_master w = true).
  { unfold Env.can_create.
    change (Env.split_last_slash Layout.ref_master)
      with (Some (".tinygit/refs/heads", "master")).
    cbv beta iota. now rewrite bool_decide_eq_true_2 by exact Hdir. }
  rewrite Hc. eexists. split; [reflexivity|].
  cbn [files Env.set_files]. rewrite lookup_insert_eq.
  now apply MainFacts.extract_written.
Qed.

(** ** Failed reads *)



Module FailedReadFacts.

Section WithLaws.
Context {zl : Zlib} {laws : ZlibLaws zl}.



End WithLaws.

End FailedReadFacts.




(** ** The commit payload *)

(** When both readings of the clock give the same second, the payload of
    tinygit.cpp has the documented form. *)
Lemma tinygit_commit_stream_same_second (t : Z) (message : string) :
  Tinygit.commit_stream t t message
  = Layout.commit_payload "dummy_sha" "me <me@example.com>" t "+0000" message.
Proof. reflexivity. Qed.

(** The combined program reads the clock once: its payload always has the
    documented form. *)
Lemma combined_commit_stream_spec (tree_sha : string) (t : Z) (message : string) :
  Combined.commit_stream tree_sha t message
  = Layout.commit_payload tree_sha "Your Name <you@example.com>" t "+0000" message.
Proof. reflexivity. Qed.

Lemma ref_is_no_object (id : string) : Layout.ref_master <> Layout.object_path id.
Proof.
  unfold Layout.ref_master, Layout.object_path. intros Heq.
  apply (f_equal (Str.take 10)) in Heq. cbn in Heq. discriminate Heq.
Qed.

Lemma tinygit_commit_unfold (zl : Zlib) (w : world) (prog msg : string) :
  Tinygit.main [prog; "commit"; "-m"; msg] w
  = (t1 <- Env.time ;;
     t2 <- Env.time ;;
     sha <- Tinygit.write_object (Tinygit.commit_stream t1 t2 msg) "commit" ;;
     Env.ofstream_write ".tinygit/refs/heads/master" (sha +:+ Str.nl) ;;
     s7 <- lift (Str.substr sha 0 7) ;;
     Env.put_cout ("[master " +:+ s7 +:+ "] " +:+ msg +:+ Str.nl) ;;
     ret 0) w.
Proof. reflexivity. Qed.

(** C9 (src/myrepo/tinygit.cpp): the commit command assembles its payload
    from two readings of the clock, the first in the author line and the
    second in the committer line, and stores it.  When the clock moves from
    1700000000 to 1700000001 between the readings, the payload is not the
    documented concatenation for any single timestamp. *)
Theorem tinygit_commit_reads_clock_twice (zl : Zlib) (w : world)
  (prog msg : string) :
  let payload :=
    Tinygit.commit_stream (clock w (ticks w)) (clock w (S (ticks w))) msg in
  let store := "commit" +:+ " " +:+ Str.to_string (Str.size payload) +:+ payload in
  (exists w' : world,
     Tinygit.main [prog; "commit"; "-m"; msg] w = Ret (0, w') /\
     files w' !! Layout.object_path (Tinygit.sha1 store)
     = Some (deflate_stream store)) /\
  (forall t : Z,
     Tinygit.commit_stream 1700000000 1700000001 msg
     <> Layout.commit_payload "dummy_sha" "me <me@example.com>" t "+0000" msg).
Proof.
  intros payload store. split.
  - rewrite tinygit_commit_unfold.
    unfold mbind at 1. unfold Env.time at 1.
    unfold mbind at 1. unfold Env.time at 1. cbn [clock ticks].
    unfold mbind at 1. rewrite StoreFacts.tinygit_write_object_spec.
    fold payload. fold store.
    set (sha := Tinygit.sha1 store).
    destruct (Sha1Facts.sha1_format store) as [Hlen _]. fold sha in Hlen.
    unfold mbind at 1. unfold Env.ofstream_write.
    destruct (Env.can_create _ _).
    + unfold mbind at 1. unfold lift at 1.
      rewrite (StoreFacts.substr_prefix sha 7 : Str.substr sha 0 7 = _).
      cbn [bind]. eexists. split; [reflexivity|].
      cbn [files Env.set_files Layout.with_file].
      rewrite lookup_insert_ne by apply ref_is_no_object.
      apply lookup_insert_eq.
    + unfold mbind at 1. unfold lift at 1.
      rewrite (StoreFacts.substr_prefix sha 7 : Str.substr sha 0 7 = _).
      cbn [bind]. eexists. split; [reflexivity|].
      apply lookup_insert_eq.
  - intros t Heq.
    assert (Hspace : forall n, Str.all_chars (Str.is_not " "%char) (Str.itoa n) = true).
    { intros n. apply DigitFacts.itoa_chars; [reflexivity | discriminate]. }
    change ("tree dummy_sha" +:+ Str.nl +:+ "author me <me@example.com> " +:+
            ("1700000000" +:+
             String " "%char
               ("+0000" +:+ Str.nl +:+ "committer me <me@example.com> " +:+
                "1700000001" +:+ " +0000" +:+ Str.nl +:+ Str.nl +:+ msg +:+ Str.nl))
            = "tree dummy_sha" +:+ Str.nl +:+ "author me <me@example.com> " +:+
            (Str.itoa t +:+
             String " "%char
               ("+0000" +:+ Str.nl +:+ "committer me <me@example.com> " +:+
                Str.itoa t +:+ " +0000" +:+ Str.nl +:+ Str.nl +:+ msg +:+ Str.nl)))
      in Heq.
    do 3 apply (inj (String.append _)) in Heq.
    apply StrFacts.split_at in Heq; [|reflexivity | apply Hspace].
    destruct Heq as [Ht Heq]. rewrite <- Ht in Heq.
    apply (f_equal (Str.take 46)) in Heq. cbn in Heq. discriminate Heq.
Qed.

(** The message is the fifth line of the payload, in every program. *)
Lemma tinygit_commit_message_line (t1 t2 : Z) (message : string) :
  Str.all_chars (Str.is_not Str.LF) message = true ->
  Str.lines (Tinygit.commit_stream t1 t2 message)
  = ["tree dummy_sha";
     "author me <me@example.com> " +:+ Str.itoa t1 +:+ " +0000";
     "committer me <me@example.com> " +:+ Str.itoa t2 +:+ " +0000";
     ""; message; ""].
Proof.
  intros Hmsg.
  assert (Hlf : forall n, Str.all_chars (Str.is_not Str.LF) (Str.itoa n) = true).
  { intros n. apply DigitFacts.itoa_chars; [reflexivity | discriminate]. }
  unfold Str.lines, Tinygit.commit_stream.
  repeat first
    [ rewrite StrFacts.lines_from_nl
    | rewrite StrFacts.lines_from_app by (reflexivity || apply Hlf || exact Hmsg) ].
  cbn [Str.lines_from Ascii.eqb Bool.eqb Str.nl Str.LF].
  now rewrite !StrFacts.app_assoc.
Qed.

Lemma combined_commit_message_line (tree_sha : string) (t : Z) (message : string) :
  Str.all_chars (Str.is_not Str.LF) tree_sha = true ->
  Str.all_chars (Str.is_not Str.LF) message = true ->
  nth 4 (Str.lines (Combined.commit_stream tree_sha t message)) "" = message.
Proof.
  intros Htree Hmsg.
  assert (Hlf : forall n, Str.all_chars (Str.is_not Str.LF) (Str.itoa n) = true).
  { intros n. apply DigitFacts.itoa_chars; [reflexivity | discriminate]. }
  unfold Str.lines, Combined.commit_stream.
  repeat first
    [ rewrite StrFacts.lines_from_nl
    | rewrite StrFacts.lines_from_app
        by (reflexivity || apply Hlf || exact Hmsg || exact Htree) ].
  reflexivity.
Qed.

(** ** The end-to-end scenario: init, add, commit -m first, log *)

Example tinygit_session :
  Sample.printed
    ((Tinygit.main (zl := Stored.zlib) ["tinygit"; "init"] ;;
      Tinygit.main (zl := Stored.zlib) ["tinygit"; "add"; "hello.txt"] ;;
      Tinygit.main (zl := Stored.zlib) ["tinygit"; "commit"; "-m"; "first"] ;;
      Tinygit.main (zl := Stored.zlib) ["tinygit"; "log"]) Sample.start)
  = Ret (Str.concat
           (map (fun l => l +:+ Str.nl)
              ["Initialized empty tinygit repo";
               "[master 34e0ac3] first";
               "commit 113tree dummy_sha";
               "author me <me@example.com> 1700000000 +0000";
               "committer me <me@example.com> 1700000001 +0000";
               "";
               "first";
               ""])).
Proof. vm_compute. reflexivity. Qed.

Example tinygit2_session :
  Sample.printed
    ((Tinygit2.main (zl := Stored.zlib) ["tinygit"; "init"] ;;
      Tinygit2.main (zl := Stored.zlib) ["tinygit"; "add"; "hello.txt"] ;;
      Tinygit2.main (zl := Stored.zlib) ["tinygit"; "commit"; "-m"; "first"] ;;
      Tinygit2.main (zl := Stored.zlib) ["tinygit"; "log"]) Sample.start)
  = Ret (Str.concat
           (map (fun l => l +:+ Str.nl)
              ["Initialized empty tinygit repo";
               "[master e4ccd32] first";
               "tree dummy_sha";
               "author me <me@example.com> 1700000000 +0000";
               "committer me <me@example.com> 1700000001 +0000";
               "";
               "first";
               ""])).
Proof. vm_compute. reflexivity. Qed.

Example combined_session :
  Sample.printed
    ((Combined.main (zl := Stored.zlib) ["tinygit"; "init"] ;;
      Combined.main (zl := Stored.zlib) ["tinygit"; "add"; "hello.txt"] ;;
      Combined.main (zl := Stored.zlib) ["tinygit"; "commit"; "-m"; "first"] ;;
      Combined.main (zl := Stored.zlib) ["tinygit"; "log"]) Sample.start)
  = Ret (Str.concat
           (map (fun l => l +:+ Str.nl)
              ["Initialized empty tinygit repository in ./.tinygit/";
               "Staged hello.txt as blob ce013625030ba8dba906f756967f9e9ca394464a";
               "[master a5b5c9c] first";
               "commit a5b5c9c75d17ca9ffc80d3c51325442e25c16a84";
               "tree dummy_tree_sha_placeholder";
               "author Your Name <you@example.com> 1700000000 +0000";
               "committer Your Name <you@example.com> 1700000000 +0000";
               "";
               "first";
               ""])).
Proof. vm_compute. reflexivity. Qed.

(** After init the sample world is [Sample.initialised], up to the clock. *)
Example tinygit_init :
  Sample.value (Tinygit.main (zl := Stored.zlib) ["tinygit"; "init"] Sample.fresh)
  = Ret 0 /\
  bind (Tinygit.main (zl := Stored.zlib) ["tinygit"; "init"] Sample.fresh)
       (fun r => Ret (files (snd r), dirs (snd r), cout (snd r)))
  = Ret (files Sample.initialised, dirs Sample.initialised, cout Sample.initialised).
Proof. split; vm_compute; reflexivity. Qed.
